(** * PriorityThreadPool: a shallow embedding of [priority_thread_pool.h]

    The development follows the header top to bottom: the [Priority]
    enumeration and its per-platform numeric encoding, the
    [TaskPriorityComparator], the [std::priority_queue] the pool keeps
    its pending records in, the pool object with its public methods, and
    finally the worker loop and the destructor as a small-step machine
    in which the steps of the worker threads and of the destroying
    thread interleave. *)

From Stdlib Require Import String ZArith NArith Lia Zify ZifyNat Sorted.
From stdpp Require Import base numbers list.

Local Open Scope nat_scope.

Ltac Zify.zify_post_hook ::= Z.to_euclidean_division_equations.

(** ** Heap algorithms of the standard library

    [std::priority_queue<T, std::vector<T>, Compare>] is the container
    adaptor of the C++ standard: [push] is [c.push_back(x)] followed by
    [std::push_heap], [pop] is [std::pop_heap] followed by
    [c.pop_back()], and [top] is [c.front()].  The two heap algorithms
    are written here the way the GNU implementation has them: a hole is
    moved through the vector and the carried value is stored once, at
    the end.  The vector is a [list]; an index that the algorithm never
    uses out of range is read with [!!]. *)

Section Heap.
Context {A : Type}.
Variable comp : A -> A -> bool.

(** [__push_heap(first, holeIndex, topIndex, value, comp)]: while the
    hole is below [topIndex] and its parent compares less than
    [value], the parent moves down into the hole. *)
Fixpoint push_heap_loop (fuel : nat) (c : list A)
    (holeIndex topIndex : nat) (value : A) : list A :=
  match fuel with
  | O => <[holeIndex := value]> c
  | S fuel' =>
      let parent := (holeIndex - 1) / 2 in
      match c !! parent with
      | Some p =>
          if (topIndex <? holeIndex) && comp p value
          then push_heap_loop fuel' (<[holeIndex := p]> c) parent topIndex value
          else <[holeIndex := value]> c
      | None => <[holeIndex := value]> c
      end
  end.

(** [std::push_heap(first, last, comp)]: the value to place is the
    last element. *)
Definition push_heap (c : list A) : list A :=
  match c !! (length c - 1) with
  | Some value => push_heap_loop (length c) c (length c - 1) 0 value
  | None => c
  end.

(** First loop of [__adjust_heap]: while the hole has two children,
    the one that does not compare less than the other moves up. *)
Fixpoint adjust_heap_loop (fuel : nat) (c : list A)
    (holeIndex len : nat) : list A * nat :=
  match fuel with
  | O => (c, holeIndex)
  | S fuel' =>
      if holeIndex <? (len - 1) / 2 then
        let secondChild := 2 * (holeIndex + 1) in
        match c !! secondChild, c !! (secondChild - 1) with
        | Some r, Some l =>
            if comp r l
            then adjust_heap_loop fuel' (<[holeIndex := l]> c) (secondChild - 1) len
            else adjust_heap_loop fuel' (<[holeIndex := r]> c) secondChild len
        | _, _ => (c, holeIndex)
        end
      else (c, holeIndex)
  end.

(** [__adjust_heap(first, holeIndex, len, value, comp)].  The test
    [(len & 1) == 0 && secondChild == (len - 2) / 2] is on signed
    distances: for [len = 0] its right-hand side is negative, which
    the guard [2 <=? len] reproduces over [nat]. *)
Definition adjust_heap (c : list A) (holeIndex len : nat) (value : A) : list A :=
  let '(c1, h1) := adjust_heap_loop len c holeIndex len in
  let '(c2, h2) :=
    if Nat.even len && (2 <=? len) && (h1 =? (len - 2) / 2) then
      match c1 !! (2 * (h1 + 1) - 1) with
      | Some l => (<[h1 := l]> c1, 2 * (h1 + 1) - 1)
      | None => (c1, h1)
      end
    else (c1, h1) in
  push_heap_loop (S h2) c2 h2 holeIndex value.

(** [std::pop_heap(first, last, comp)]: with more than one element,
    the last one is saved, the first one is stored in its place, and
    the saved value is sifted from the root over the first
    [last - first - 1] positions. *)
Definition pop_heap (c : list A) : list A :=
  if 1 <? length c then
    let last := length c - 1 in
    match c !! last, c !! 0 with
    | Some value, Some front => adjust_heap (<[last := front]> c) 0 last value
    | _, _ => c
    end
  else c.

Definition pop_back (c : list A) : list A := take (length c - 1) c.

(** The members of [std::priority_queue] the pool calls. *)
Definition pq_push (x : A) (c : list A) : list A := push_heap (c ++ [x]).
Definition pq_top (c : list A) : option A := c !! 0.
Definition pq_pop (c : list A) : list A := pop_back (pop_heap c).
Definition pq_empty (c : list A) : bool :=
  match c with [] => true | _ :: _ => false end.
Definition pq_size (c : list A) : nat := length c.

(** The element at [i] does not beat its parent. *)
Definition edge_ok (c : list A) (i : nat) : Prop :=
  forall x y, c !! i = Some x -> c !! ((i - 1) / 2) = Some y -> comp y x = false.

Definition is_heap (c : list A) : Prop := forall i, 0 < i -> edge_ok c i.

(** What holds of the vector while a hole at [h] waits for [v]. *)
Record hole_inv (c : list A) (h : nat) (v : A) : Prop := {
  hole_edges : forall i, 0 < i -> i <> h -> edge_ok c i;
  hole_grand : forall i x y, 0 < i -> (i - 1) / 2 = h -> 0 < h ->
    c !! i = Some x -> c !! ((h - 1) / 2) = Some y -> comp y x = false;
  hole_value : forall i x, 0 < i -> (i - 1) / 2 = h ->
    c !! i = Some x -> comp v x = false }.

End Heap.

(** ** The [Priority] enumeration and the comparator *)


Inductive Priority := Lowest | Low | Normal | High | Realtime.

(** The five [THREAD_PRIORITY_*] macros the enumerators are initialised
    with. *)
Record thread_priorities := {
  THREAD_PRIORITY_LOWEST : Z;
  THREAD_PRIORITY_BELOW_NORMAL : Z;
  THREAD_PRIORITY_NORMAL : Z;
  THREAD_PRIORITY_ABOVE_NORMAL : Z;
  THREAD_PRIORITY_HIGHEST : Z }.

(** Under [__linux__] the header defines the macros itself; otherwise
    they come from [Windows.h], which is not part of the repository, and
    are a parameter of the platform. *)
Inductive platform := Linux | Windows (winbase : thread_priorities).

Definition linux_priorities : thread_priorities :=
  {| THREAD_PRIORITY_LOWEST := 99;
     THREAD_PRIORITY_BELOW_NORMAL := 75;
     THREAD_PRIORITY_NORMAL := 50;
     THREAD_PRIORITY_ABOVE_NORMAL := 25;
     THREAD_PRIORITY_HIGHEST := 1 |}.

Definition macros (pf : platform) : thread_priorities :=
  match pf with
  | Linux => linux_priorities
  | Windows winbase => winbase
  end.

(** [#define COMPARATOR >] on Linux, [<] elsewhere. *)
Definition COMPARATOR (pf : platform) : Z -> Z -> bool :=
  match pf with
  | Linux => Z.gtb
  | Windows _ => Z.ltb
  end.

(** The underlying value of an enumerator, which is also what
    [static_cast<int>(task.second)] yields.  The underlying type is
    [int8_t]; an initialiser that does not fit it is rejected by the
    compiler, so no wrap-around occurs. *)
Definition priority_value (pf : platform) (p : Priority) : Z :=
  match p with
  | Lowest => THREAD_PRIORITY_LOWEST (macros pf)
  | Low => THREAD_PRIORITY_BELOW_NORMAL (macros pf)
  | Normal => THREAD_PRIORITY_NORMAL (macros pf)
  | High => THREAD_PRIORITY_ABOVE_NORMAL (macros pf)
  | Realtime => THREAD_PRIORITY_HIGHEST (macros pf)
  end.

(** The abstract order Realtime > High > Normal > Low > Lowest, as a
    rank. *)
Definition rank (p : Priority) : nat :=
  match p with
  | Lowest => 0
  | Low => 1
  | Normal => 2
  | High => 3
  | Realtime => 4
  end.

(** The values [Windows.h] gives the macros grow with the urgency. *)
Definition platform_ordered (pf : platform) : Prop :=
  match pf with
  | Linux => True
  | Windows w =>
      (THREAD_PRIORITY_LOWEST w < THREAD_PRIORITY_BELOW_NORMAL w
       /\ THREAD_PRIORITY_BELOW_NORMAL w < THREAD_PRIORITY_NORMAL w
       /\ THREAD_PRIORITY_NORMAL w < THREAD_PRIORITY_ABOVE_NORMAL w
       /\ THREAD_PRIORITY_ABOVE_NORMAL w < THREAD_PRIORITY_HIGHEST w)%Z
  end.

(** The values of the Windows SDK. *)
Definition winbase_priorities : thread_priorities :=
  {| THREAD_PRIORITY_LOWEST := -2;
     THREAD_PRIORITY_BELOW_NORMAL := -1;
     THREAD_PRIORITY_NORMAL := 0;
     THREAD_PRIORITY_ABOVE_NORMAL := 1;
     THREAD_PRIORITY_HIGHEST := 2 |}.

Section Pool.
Context {Task : Type}.

(** [using TaskPriority = std::pair<Task, Priority>] *)
Definition TaskPriority : Type := Task * Priority.

(** [TaskPriorityComparator::operator()] *)
Definition TaskPriorityComparator (pf : platform) (first second : TaskPriority) : bool :=
  COMPARATOR pf (priority_value pf (snd first)) (priority_value pf (snd second)).

Definition TasksPriorityQueue : Type := list TaskPriority.

(** ** The pool object *)

(** Where a worker thread stands in the loop of the constructor's
    lambda.  [AtLock]: about to construct the [unique_lock].
    [AtPredicate]: inside [m_cv.wait], holding the lock, about to
    evaluate the predicate.  [AtWait]: the predicate was false; about to
    release the lock and block, which the condition variable does as one
    atomic step.  [Blocked]: blocked on [m_cv].  [Woken]: notified,
    about to take the lock again.  [Dequeuing]: [wait] has returned, the
    lock is held.  [Adapting], [Executing]: the lock is released and the
    record that was popped is being dispatched.  [Terminal]: the loop
    was left through [break]. *)
Inductive worker :=
| AtLock
| AtPredicate
| AtWait
| Blocked
| Woken
| Dequeuing
| Adapting (task : TaskPriority)
| Executing (task : TaskPriority)
| Terminal.

(** The states of the worker as the design names them. *)
Inductive phase := Waiting | InDequeuing | InAdapting | InExecuting | InTerminal.

Definition phase_of (w : worker) : phase :=
  match w with
  | AtLock | AtPredicate | AtWait | Blocked | Woken => Waiting
  | Dequeuing => InDequeuing
  | Adapting _ => InAdapting
  | Executing _ => InExecuting
  | Terminal => InTerminal
  end.

(** The data members.  [m_mutex] is the index of the thread that owns
    the mutex exclusively, if any; the threads blocked on [m_cv] are the
    [Blocked] entries of [m_threads]. *)
Record PriorityThreadPool := {
  m_quit : bool;
  m_tasks : TasksPriorityQueue;
  m_threads : list worker;
  m_mutex : option nat }.

Definition set_quit (b : bool) (p : PriorityThreadPool) : PriorityThreadPool :=
  {| m_quit := b; m_tasks := m_tasks p; m_threads := m_threads p; m_mutex := m_mutex p |}.
Definition set_tasks (q : TasksPriorityQueue) (p : PriorityThreadPool) : PriorityThreadPool :=
  {| m_quit := m_quit p; m_tasks := q; m_threads := m_threads p; m_mutex := m_mutex p |}.
Definition set_threads (ts : list worker) (p : PriorityThreadPool) : PriorityThreadPool :=
  {| m_quit := m_quit p; m_tasks := m_tasks p; m_threads := ts; m_mutex := m_mutex p |}.
Definition set_mutex (m : option nat) (p : PriorityThreadPool) : PriorityThreadPool :=
  {| m_quit := m_quit p; m_tasks := m_tasks p; m_threads := m_threads p; m_mutex := m |}.
Definition set_worker (i : nat) (w : worker) (p : PriorityThreadPool) : PriorityThreadPool :=
  set_threads (<[i := w]> (m_threads p)) p.

(** *** Construction *)

Inductive exception :=
| invalid_argument (what : String.string)
| length_error (what : String.string).

(** A constructor either throws, leaving behind the members as they
    were at the [throw], or completes. *)
Inductive constructed :=
| Thrown (e : exception) (members : PriorityThreadPool)
| Constructed (p : PriorityThreadPool).

(** [size_t], on a 64-bit target: the unsigned integers up to
    [SIZE_MAX]. *)
Definition size_t : Type := N.

Definition SIZE_MAX : N := 18446744073709551615.

(** [std::vector<std::jthread>::max_size()] as the GNU implementation
    has it on a 64-bit target: [PTRDIFF_MAX / sizeof(std::jthread)],
    with sixteen bytes to a [jthread]. *)
Definition max_size : N := 576460752303423487.

Definition default_members : PriorityThreadPool :=
  {| m_quit := false; m_tasks := []; m_threads := []; m_mutex := None |}.

(** [m_threads.reserve(n)] throws [length_error] when [n] exceeds
    [max_size()]; otherwise it changes the capacity only, which the
    model does not record. *)
Definition reserve (n : size_t) (p : PriorityThreadPool) : exception + PriorityThreadPool :=
  if (max_size <? n)%N then inl (length_error "vector::reserve"%string) else inr p.

(** [PriorityThreadPool(const size_t maxThreads)]: the test of the
    count, the [reserve], and the loop that pushes one [jthread] per
    iteration; each thread starts at the top of its lambda.  Whether the
    machine has the memory and the threads asked for is not modelled: an
    allocation or a thread start that fails throws [bad_alloc] or
    [system_error] out of the constructor. *)
Definition construct (maxThreads : size_t) : constructed :=
  if (maxThreads <=? 0)%N
  then Thrown (invalid_argument "maxThreads must be greater than 0!"%string) default_members
  else
    match reserve maxThreads default_members with
    | inl e => Thrown e default_members
    | inr members =>
        Constructed
          (N.iter maxThreads (fun p => set_threads (m_threads p ++ [AtLock]) p) members)
    end.

(** *** The condition variable *)

Definition is_blocked (w : worker) : bool :=
  match w with Blocked => true | _ => false end.

Fixpoint blocked_from (k : nat) (ts : list worker) : list nat :=
  match ts with
  | [] => []
  | w :: ts' => (if is_blocked w then [k] else []) ++ blocked_from (S k) ts'
  end.

(** [m_cv.notify_one()] wakes one of the blocked threads, if there is
    one; which one is not determined, and [pick] resolves the choice. *)
Definition notify_one (pick : nat) (ts : list worker) : list worker :=
  let bs := blocked_from 0 ts in
  match bs !! (pick mod length bs) with
  | Some i => <[i := Woken]> ts
  | None => ts
  end.

(** [m_cv.notify_all()] *)
Definition notify_all (ts : list worker) : list worker :=
  map (fun w => if is_blocked w then Woken else w) ts.

(** *** Submission and introspection

    Each method is the effect of one complete call: the [lock_guard] or
    [shared_lock] is taken and released inside it, so the call can
    proceed only while no thread owns the mutex, and leaves it free. *)

(** [void add(const Task task, const Priority priority)] *)
Definition add (task : Task) (priority : Priority) (pick : nat)
    (pf : platform) (p : PriorityThreadPool) : PriorityThreadPool :=
  let p1 := set_tasks (pq_push (TaskPriorityComparator pf) (task, priority) (m_tasks p)) p in
  set_threads (notify_one pick (m_threads p1)) p1.

(** [void add(std::span<TaskPriority> tasks)] *)
Definition add_span (tasks : list TaskPriority) (pick : nat)
    (pf : platform) (p : PriorityThreadPool) : PriorityThreadPool :=
  let p1 := set_tasks
              (fold_left (fun q task => pq_push (TaskPriorityComparator pf) task q)
                 tasks (m_tasks p)) p in
  set_threads (notify_one pick (m_threads p1)) p1.

(** [size_t remainingTasks() const] *)
Definition remainingTasks (p : PriorityThreadPool) : size_t * PriorityThreadPool :=
  (N.of_nat (pq_size (m_tasks p)), p).

(** [bool hasRemainingTasks() const] *)
Definition hasRemainingTasks (p : PriorityThreadPool) : bool * PriorityThreadPool :=
  (negb (pq_empty (m_tasks p)), p).

(** ** The worker loop and the destructor *)

(** What the operating system answers during one dispatch.  On Linux
    [getschedparam_ret] is the value [pthread_getschedparam] returns and
    [sched_priority] the [param.sched_priority] it fills in; on Windows
    [sched_priority] is the value [GetThreadPriority] returns.
    [setpriority_ret] is what [pthread_setschedparam] (zero on success)
    or [SetThreadPriority] (non-zero on success) returns. *)
Record os_reply := {
  getschedparam_ret : Z;
  sched_priority : Z;
  setpriority_ret : Z }.

Inductive event :=
| EvGetPriority
| EvSetPriority (v : Z)
| EvLog (message : String.string)
| EvInvoke (task : Task).

Definition newline : String.string := String (Ascii.ascii_of_nat 10) EmptyString.

Definition errorMessage : String.string :=
  ("Could not change thread priority!" ++ newline)%string.

(** The conditionally compiled block between [lock.unlock()] and
    [task.first()].  On Linux the set call also passes the policy
    [SCHED_FIFO]. *)
Definition adapt_priority (pf : platform) (os : os_reply) (priority : Z) : list event :=
  match pf with
  | Linux =>
      EvGetPriority ::
      (if (getschedparam_ret os =? 0)%Z then
         if negb (sched_priority os =? priority)%Z then
           EvSetPriority priority ::
           (if negb (setpriority_ret os =? 0)%Z then [EvLog errorMessage] else [])
         else []
       else [])
  | Windows _ =>
      EvGetPriority ::
      (if negb (sched_priority os =? priority)%Z then
         EvSetPriority priority ::
         (if (setpriority_ret os =? 0)%Z then [EvLog errorMessage] else [])
       else [])
  end.

(** One step of worker [i]; [None] when the thread cannot move (it
    waits for the mutex or for a notification, or has ended).  A
    blocked thread moves only once it is notified: the standard allows
    a spurious wake-up but promises none. *)
Definition worker_step (pf : platform) (os : os_reply) (i : nat)
    (p : PriorityThreadPool) : option (PriorityThreadPool * list event) :=
  match m_threads p !! i with
  | None => None
  | Some w =>
      match w with
      | AtLock | Woken =>
          match m_mutex p with
          | None => Some (set_mutex (Some i) (set_worker i AtPredicate p), [])
          | Some _ => None
          end
      | AtPredicate =>
          if m_quit p || negb (pq_empty (m_tasks p))
          then Some (set_worker i Dequeuing p, [])
          else Some (set_worker i AtWait p, [])
      | AtWait => Some (set_mutex None (set_worker i Blocked p), [])
      | Blocked => None
      | Dequeuing =>
          if pq_empty (m_tasks p) then
            if m_quit p
            then Some (set_mutex None (set_worker i Terminal p), [])
            else Some (set_mutex None (set_worker i AtLock p), [])
          else
            match pq_top (m_tasks p) with
            | Some task =>
                Some (set_mutex None
                        (set_worker i (Adapting task)
                           (set_tasks (pq_pop (TaskPriorityComparator pf) (m_tasks p)) p)),
                      [])
            | None => None
            end
      | Adapting task =>
          Some (set_worker i (Executing task) p,
                adapt_priority pf os (priority_value pf (snd task)))
      | Executing task => Some (set_worker i AtLock p, [EvInvoke (fst task)])
      | Terminal => None
      end
  end.

(** Where the thread that owns the pool stands: the object is alive, or
    its destructor has stored [m_quit], or has called [notify_all], or
    the [jthread] members have all been joined. *)
Inductive owner := Alive | QuitStored | Notified | Joined.

Record system := {
  pool : PriorityThreadPool;
  caller : owner }.

Definition is_terminal (w : worker) : bool :=
  match w with Terminal => true | _ => false end.

(** The destructor: [m_quit = true], then [m_cv.notify_all()], then the
    destructors of the [jthread] members, which join.  The store to
    [m_quit] is made without taking [m_mutex]. *)
Definition destructor_step (s : system) : option system :=
  match caller s with
  | Alive => Some {| pool := set_quit true (pool s); caller := QuitStored |}
  | QuitStored =>
      Some {| pool := set_threads (notify_all (m_threads (pool s))) (pool s);
              caller := Notified |}
  | Notified =>
      if forallb is_terminal (m_threads (pool s))
      then Some {| pool := pool s; caller := Joined |}
      else None
  | Joined => None
  end.

(** What a thread can do next.  A call of [add] is two steps: the
    scope of the [lock_guard] with the push ([ActPush], [ActPushSpan]),
    and the [m_cv.notify_one()] that follows it with the mutex released
    ([ActNotifyOne]); other threads may run in between.  [ActAdd] and
    [ActAddSpan] are the whole call with nothing in between.  The model
    does not count the notifications that are due: it lets one arrive at
    any time while the object is alive, which wakes a blocked thread as
    a spurious wake-up of the condition variable may. *)
Inductive action :=
| ActWorker (i : nat) (os : os_reply)
| ActDestructor
| ActAdd (task : Task) (priority : Priority) (pick : nat)
| ActAddSpan (tasks : list TaskPriority) (pick : nat)
| ActPush (task : Task) (priority : Priority)
| ActPushSpan (tasks : list TaskPriority)
| ActNotifyOne (pick : nat).

Definition mutex_free (p : PriorityThreadPool) : bool :=
  match m_mutex p with None => true | Some _ => false end.

(** One step of the whole program.  The public methods are called on a
    live object; the part of [add] under the [lock_guard] goes through
    when the mutex is free, the [notify_one] needs no mutex. *)
Definition step (pf : platform) (a : action) (s : system) : option (system * list event) :=
  match a with
  | ActWorker i os =>
      match worker_step pf os i (pool s) with
      | Some (p', ev) => Some ({| pool := p'; caller := caller s |}, ev)
      | None => None
      end
  | ActDestructor =>
      match destructor_step s with
      | Some s' => Some (s', [])
      | None => None
      end
  | ActAdd task priority pick =>
      match caller s with
      | Alive =>
          if mutex_free (pool s)
          then Some ({| pool := add task priority pick pf (pool s); caller := Alive |}, [])
          else None
      | _ => None
      end
  | ActAddSpan tasks pick =>
      match caller s with
      | Alive =>
          if mutex_free (pool s)
          then Some ({| pool := add_span tasks pick pf (pool s); caller := Alive |}, [])
          else None
      | _ => None
      end
  | ActPush task priority =>
      match caller s with
      | Alive =>
          if mutex_free (pool s)
          then Some ({| pool := set_tasks
                                  (pq_push (TaskPriorityComparator pf) (task, priority)
                                     (m_tasks (pool s)))
                                  (pool s);
                        caller := Alive |}, [])
          else None
      | _ => None
      end
  | ActPushSpan tasks =>
      match caller s with
      | Alive =>
          if mutex_free (pool s)
          then Some ({| pool := set_tasks
                                  (fold_left
                                     (fun q task => pq_push (TaskPriorityComparator pf) task q)
                                     tasks (m_tasks (pool s)))
                                  (pool s);
                        caller := Alive |}, [])
          else None
      | _ => None
      end
  | ActNotifyOne pick =>
      match caller s with
      | Alive =>
          Some ({| pool := set_threads (notify_one pick (m_threads (pool s))) (pool s);
                   caller := Alive |}, [])
      | _ => None
      end
  end.

Fixpoint run (pf : platform) (schedule : list action) (s : system)
    : option (system * list event) :=
  match schedule with
  | [] => Some (s, [])
  | a :: rest =>
      match step pf a s with
      | Some (s', ev) =>
          match run pf rest s' with
          | Some (s'', ev') => Some (s'', ev ++ ev')
          | None => None
          end
      | None => None
      end
  end.

(** The states a program can be in: a pool has been constructed and the
    threads have taken steps in some order. *)
Inductive reachable (pf : platform) : system -> Prop :=
| reach_construct maxThreads p :
    construct maxThreads = Constructed p ->
    reachable pf {| pool := p; caller := Alive |}
| reach_step s a s' ev :
    reachable pf s -> step pf a s = Some (s', ev) -> reachable pf s'.

(** A worker running on its own, with the answers of the operating
    system taken from [os] in order. *)
Fixpoint worker_run (pf : platform) (os : nat -> os_reply) (fuel : nat) (i : nat)
    (p : PriorityThreadPool) : PriorityThreadPool * list event :=
  match fuel with
  | O => (p, [])
  | S fuel' =>
      match worker_step pf (os 0) i p with
      | None => (p, [])
      | Some (p', ev) =>
          let '(p'', ev') := worker_run pf (fun n => os (S n)) fuel' i p' in
          (p'', ev ++ ev')
      end
  end.

(** The callables a trace invokes, in order. *)
Definition invoked (tr : list event) : list Task :=
  omap (fun e => match e with EvInvoke t => Some t | _ => None end) tr.

Definition logged (tr : list event) : list String.string :=
  omap (fun e => match e with EvLog m => Some m | _ => None end) tr.

Definition set_calls (tr : list event) : list Z :=
  omap (fun e => match e with EvSetPriority v => Some v | _ => None end) tr.

(** ** Invariants of the reachable states *)

(** The program points at which a worker owns [m_mutex]. *)
Definition holds_mutex (w : worker) : bool :=
  match w with
  | AtPredicate | AtWait | Dequeuing => true
  | _ => false
  end.

Definition mutex_inv (ts : list worker) (m : option nat) : Prop :=
  forall j w, ts !! j = Some w -> (holds_mutex w = true <-> m = Some j).

Definition pool_inv (pf : platform) (p : PriorityThreadPool) : Prop :=
  is_heap (TaskPriorityComparator pf) (m_tasks p) /\ mutex_inv (m_threads p) (m_mutex p).

(** The workers are the same threads, each where it was, except that a
    blocked one may have been woken. *)
Definition same_workers (ts ts' : list worker) : Prop :=
  length ts' = length ts /\
  forall j w, ts !! j = Some w ->
    ts' !! j = Some w \/ (w = Blocked /\ ts' !! j = Some Woken).

Definition same_frame (p p' : PriorityThreadPool) : Prop :=
  m_quit p' = m_quit p /\ m_mutex p' = m_mutex p /\
  same_workers (m_threads p) (m_threads p').

(** Whether the read of the thread's current priority succeeds.  On
    Linux the code tests the value [pthread_getschedparam] returns; on
    Windows it uses what [GetThreadPriority] returns as it is. *)
Definition read_succeeded (pf : platform) (os : os_reply) : bool :=
  match pf with
  | Linux => (getschedparam_ret os =? 0)%Z
  | Windows _ => true
  end.

(** Whether the set call, if one is made, reports a failure. *)
Definition set_failed (pf : platform) (os : os_reply) : bool :=
  match pf with
  | Linux => negb (setpriority_ret os =? 0)%Z
  | Windows _ => (setpriority_ret os =? 0)%Z
  end.

(** ** Bookkeeping for whole runs *)

(** The callable a worker has popped and not yet invoked. *)
Definition flight (w : worker) : list Task :=
  match w with
  | Adapting task | Executing task => [fst task]
  | _ => []
  end.

Definition in_flight (ts : list worker) : list Task := flat_map flight ts.

(** The callables an action hands to the pool. *)
Definition submitted_by (a : action) : list Task :=
  match a with
  | ActAdd task _ _ | ActPush task _ => [task]
  | ActAddSpan tasks _ | ActPushSpan tasks => map fst tasks
  | _ => []
  end.

Definition submitted (schedule : list action) : list Task :=
  flat_map submitted_by schedule.

Definition is_submission (a : action) : bool :=
  match a with
  | ActAdd _ _ _ | ActAddSpan _ _ | ActPush _ _ | ActPushSpan _ => true
  | _ => false
  end.

(** The records of a queue in the order in which repeated [top]/[pop]
    hands them out. *)
Fixpoint drain (pf : platform) (fuel : nat) (q : TasksPriorityQueue) : list TaskPriority :=
  match fuel with
  | O => []
  | S fuel' =>
      match pq_top q with
      | Some r => r :: drain pf fuel' (pq_pop (TaskPriorityComparator pf) q)
      | None => []
      end
  end.

Definition drain_order (pf : platform) (q : TasksPriorityQueue) : list TaskPriority :=
  drain pf (length q) q.

(** The queue a batch submitted to an empty pool builds. *)
Definition batch_queue (pf : platform) (tasks : list TaskPriority) : TasksPriorityQueue :=
  fold_left (fun q task => pq_push (TaskPriorityComparator pf) task q) tasks [].

(** What holds of every state a program reaches, beyond [pool_inv]. *)
Record system_inv (s : system) : Prop := {
  inv_owner : forall j, m_mutex (pool s) = Some j -> j < length (m_threads (pool s));
  inv_quit : m_quit (pool s) = true <-> caller s <> Alive;
  inv_terminal : forall j, m_threads (pool s) !! j = Some Terminal ->
    m_quit (pool s) = true /\ m_tasks (pool s) = [];
  inv_wait : forall j, m_threads (pool s) !! j = Some AtWait -> m_tasks (pool s) = [];
  inv_dequeuing : forall j, m_threads (pool s) !! j = Some Dequeuing ->
    m_quit (pool s) || negb (pq_empty (m_tasks (pool s))) = true;
  inv_joined : caller s = Joined -> Forall (fun w => w = Terminal) (m_threads (pool s));
  inv_workers : 0 < length (m_threads (pool s)) }.

(** Records in non-increasing order of priority. *)
Definition by_priority (a b : TaskPriority) : Prop := rank (snd b) <= rank (snd a).

End Pool.

(** ** Concrete pools

    The callables are numbered; the pool has one worker. *)

Definition os_agrees (v : Z) : os_reply :=
  {| getschedparam_ret := 0; sched_priority := v; setpriority_ret := 0 |}.

(** [pthread_getschedparam] fails (returns [EINVAL]). *)
Definition os_read_fails : os_reply :=
  {| getschedparam_ret := 22; sched_priority := 0; setpriority_ret := 0 |}.

(** A pool with one worker, just constructed. *)
Definition fresh_pool : @system nat :=
  {| pool := {| m_quit := false; m_tasks := []; m_threads := [AtLock]; m_mutex := None |};
     caller := Alive |}.

(** Three records are submitted and the worker has passed the wait. *)
Definition dequeuing_state : @system nat :=
  {| pool := {| m_quit := false;
                m_tasks := [(2, High); (1, Low); (3, Normal)];
                m_threads := [Dequeuing];
                m_mutex := Some 0 |};
     caller := Alive |}.

(** The worker has popped a record of priority Normal. *)
Definition adapting_state : @system nat :=
  {| pool := {| m_quit := false;
                m_tasks := [];
                m_threads := [Adapting (7, Normal)];
                m_mutex := None |};
     caller := Alive |}.

(** One record is queued, then the destructor stores the flag and
    notifies. *)
Definition shutdown_state : @system nat :=
  {| pool := {| m_quit := true;
                m_tasks := [(7, Normal)];
                m_threads := [AtLock];
                m_mutex := None |};
     caller := Notified |}.

(** The flag is set, the notification has been sent, and the worker is
    blocked on the condition variable. *)
Definition missed_wakeup_state : @system nat :=
  {| pool := {| m_quit := true; m_tasks := []; m_threads := [Blocked]; m_mutex := None |};
     caller := Notified |}.

(** The worker has found the predicate false and is about to block. *)
Definition at_wait_state : @system nat :=
  {| pool := {| m_quit := false; m_tasks := []; m_threads := [AtWait]; m_mutex := Some 0 |};
     caller := Alive |}.

(** The worker is blocked, and a call of [add] has pushed record 7 and
    has not yet reached its [notify_one]. *)
Definition pushed_state : @system nat :=
  {| pool := {| m_quit := false; m_tasks := [(7, Normal)]; m_threads := [Blocked];
                m_mutex := None |};
     caller := Alive |}.

(** The worker holds the lock inside [wait] and is about to evaluate the
    predicate: with nothing queued and no shutdown, with one record
    queued, and with shutdown requested. *)
Definition predicate_idle : @PriorityThreadPool nat :=
  {| m_quit := false; m_tasks := []; m_threads := [AtPredicate]; m_mutex := Some 0 |}.

Definition predicate_pending : @PriorityThreadPool nat :=
  {| m_quit := false; m_tasks := [(7, Normal)]; m_threads := [AtPredicate];
     m_mutex := Some 0 |}.

Definition predicate_quit : @PriorityThreadPool nat :=
  {| m_quit := true; m_tasks := []; m_threads := [AtPredicate]; m_mutex := Some 0 |}.

(** [wait] has returned and the queue is empty: without and with the
    shutdown flag. *)
Definition dequeuing_empty : @PriorityThreadPool nat :=
  {| m_quit := false; m_tasks := []; m_threads := [Dequeuing]; m_mutex := Some 0 |}.

Definition dequeuing_quit : @PriorityThreadPool nat :=
  {| m_quit := true; m_tasks := []; m_threads := [Dequeuing]; m_mutex := Some 0 |}.

(** The worker has left its loop. *)
Definition terminal_pool : @PriorityThreadPool nat :=
  {| m_quit := true; m_tasks := []; m_threads := [Terminal]; m_mutex := None |}.

(** ** Printing a priority *)

(** The label [operator<<] writes for a value of the enumeration type.
    The [switch] compares with the five enumerators in the order of the
    source; any other value of the underlying type falls to
    [default]. *)
Definition Priority_label (pf : platform) (priority : Z) : String.string :=
  if (priority =? priority_value pf Lowest)%Z then "Lowest"%string
  else if (priority =? priority_value pf Low)%Z then "Low"%string
  else if (priority =? priority_value pf Normal)%Z then "Normal"%string
  else if (priority =? priority_value pf High)%Z then "High"%string
  else if (priority =? priority_value pf Realtime)%Z then "Realtime"%string
  else "Unknown"%string.

(** [std::ostream& operator<<(std::ostream& os, Priority priority)];
    the stream is the text written so far. *)
Definition operator_lshift (pf : platform) (os : String.string) (priority : Z)
    : String.string :=
  (os ++ Priority_label pf priority)%string.

(** ** The advanced example of the README

    A callable built by [generateTasks] is a closure over the priority
    it was generated for, and is represented by that priority. *)

(** What the closure does when invoked, on the text of [std::cout]. *)
Definition demo_task (pf : platform) (captured : Priority) (cout : String.string)
    : String.string :=
  (operator_lshift pf (cout ++ "Executing ") (priority_value pf captured)
     ++ " priority task!" ++ newline)%string.

Fixpoint generateTasks_loop (n : nat) (priority : Priority)
    (out : list (@TaskPriority Priority)) : list (@TaskPriority Priority) :=
  match n with
  | O => out
  | S n' => generateTasks_loop n' priority (out ++ [(priority, priority)])
  end.

(** [void generateTasks(const Priority priority, const int tasks,
    std::vector<TaskPriority>& out)] *)
Definition generateTasks (priority : Priority) (tasks : Z)
    (out : list (@TaskPriority Priority)) : list (@TaskPriority Priority) :=
  generateTasks_loop (Z.to_nat tasks) priority out.

(** The vector [main] builds before it calls [pool.add(tasks)]. *)
Definition demo_tasks : list (@TaskPriority Priority) :=
  generateTasks Realtime 1
    (generateTasks Low 4
       (generateTasks High 2
          (generateTasks Lowest 1
             (generateTasks Normal 8 [])))).

(** The text on [std::cout] after the invocations of a trace. *)
Definition demo_cout (pf : platform) (tr : list (@event Priority)) : String.string :=
  fold_left (fun cout task => demo_task pf task cout) (invoked tr) EmptyString.

(** A sequence of [generateTasks] calls on one vector, as in [main]. *)
Definition generate_all (calls : list (Priority * Z)) : list (@TaskPriority Priority) :=
  fold_left (fun out call => generateTasks (fst call) (snd call) out) calls [].

Definition by_rank (a b : Priority) : Prop := rank b <= rank a.

(** The calls of the README's [main], and one way its threads can
    interleave: the batch is submitted, the destructor stores the flag
    and notifies, the worker runs until it ends, and the join
    completes. *)
Definition readme_calls : list (Priority * Z) :=
  [(Normal, 8%Z); (Lowest, 1%Z); (High, 2%Z); (Low, 4%Z); (Realtime, 1%Z)].

Definition readme_after : list (@action Priority) :=
  [ActDestructor; ActDestructor]
    ++ replicate 83 (ActWorker 0 {| getschedparam_ret := 0; sched_priority := 0;
                                    setpriority_ret := 0 |})
    ++ [ActDestructor].

(** Four records of one priority, and a short run of a one-worker pool
    on two records. *)
Definition four_normal : list (@TaskPriority nat) :=
  [(1, Normal); (2, Normal); (3, Normal); (4, Normal)].

Definition short_after : list (@action nat) :=
  [ActDestructor; ActDestructor]
    ++ replicate 13 (ActWorker 0 {| getschedparam_ret := 0; sched_priority := 0;
                                    setpriority_ret := 0 |})
    ++ [ActDestructor].

(** ** Correctness of the heap algorithms

    For a comparator that is a strict weak order (asymmetric, and with a
    transitive complement), the vector of a priority queue is a heap,
    its front is a greatest element, and [push]/[pop] add and remove
    exactly one element. *)

Section HeapFacts.
Context {A : Type}.
Variable comp : A -> A -> bool.
Hypothesis comp_asym : forall a b, comp a b = true -> comp b a = false.
Hypothesis comp_negtrans :
  forall a b c, comp a b = false -> comp b c = false -> comp a c = false.

Lemma comp_irrefl a : comp a a = false.
Proof. destruct (comp a a) eqn:E; [apply comp_asym in E as E'; congruence | done]. Qed.

Lemma is_heap_nil : is_heap comp [].
Proof. intros i _ x y H. by rewrite lookup_nil in H. Qed.

Lemma is_heap_prefix c k : is_heap comp (c ++ k) -> is_heap comp c.
Proof.
  intros H i Hi x y Hx Hy. apply (H i Hi x y); by apply lookup_app_l_Some.
Qed.

Lemma heap_front_greatest c t :
  is_heap comp c -> c !! 0 = Some t -> forall i x, c !! i = Some x -> comp t x = false.
Proof.
  intros Hh Ht i. induction i as [i IH] using lt_wf_ind. intros x Hx.
  destruct (decide (i = 0)) as [->|Hi].
  - rewrite Ht in Hx. injection Hx as <-. apply comp_irrefl.
  - assert (Hp : (i - 1) / 2 < i) by lia.
    destruct (lookup_lt_is_Some_2 c ((i - 1) / 2)) as [y Hy].
    { apply lookup_lt_Some in Hx. lia. }
    apply comp_negtrans with y.
    + by apply (IH _ Hp).
    + apply (Hh i); [lia | done | done].
Qed.

Lemma length_push_heap_loop fuel c h top v :
  length (push_heap_loop comp fuel c h top v) = length c.
Proof.
  revert c h. induction fuel as [|fuel IH]; intros c h; cbn [push_heap_loop].
  - by rewrite length_insert.
  - destruct (c !! ((h - 1) / 2)) as [p|]; [|by rewrite length_insert].
    destruct ((top <? h) && comp p v); [|by rewrite length_insert].
    by rewrite IH, length_insert.
Qed.

Lemma lookup_insert_hole (c : list A) h i x y :
  <[h := y]> c !! i = Some x -> (i = h /\ x = y) \/ (i <> h /\ c !! i = Some x).
Proof.
  intros H. destruct (decide (i = h)) as [->|Hne].
  - left. split; [done|]. apply lookup_lt_Some in H as Hl. rewrite length_insert in Hl.
    rewrite list_lookup_insert_eq in H by done. congruence.
  - right. by rewrite list_lookup_insert_ne in H.
Qed.

Lemma hole_fill_heap c h v :
  hole_inv comp c h v ->
  (0 < h -> forall p, c !! ((h - 1) / 2) = Some p -> comp p v = false) ->
  is_heap comp (<[h := v]> c).
Proof.
  intros [Ha Hb Hc] Hp i Hi x y Hx Hy.
  destruct (lookup_insert_hole _ _ _ _ _ Hx) as [[-> ->]|[Hne Hx']].
  - destruct (lookup_insert_hole _ _ _ _ _ Hy) as [[E _]|[_ Hy']]; [lia|].
    by apply (Hp Hi y).
  - destruct (lookup_insert_hole _ _ _ _ _ Hy) as [[E ->]|[Hq Hy']].
    + by apply (Hc i x).
    + by apply (Ha i Hi Hne x y).
Qed.

Lemma hole_move_up c h v p :
  hole_inv comp c h v -> 0 < h -> c !! ((h - 1) / 2) = Some p -> comp p v = true ->
  hole_inv comp (<[h := p]> c) ((h - 1) / 2) v.
Proof.
  intros [Ha Hb Hc] Hh Hp Hpv.
  assert (Hlt : (h - 1) / 2 < h) by lia.
  assert (Hvp : comp v p = false) by by apply comp_asym.
  split.
  - intros i Hi Hne x y Hx Hy.
    destruct (lookup_insert_hole _ _ _ _ _ Hx) as [[-> ->]|[Hih Hx']].
    + rewrite list_lookup_insert_ne in Hy by lia.
      rewrite Hp in Hy. injection Hy as <-. apply comp_irrefl.
    + destruct (lookup_insert_hole _ _ _ _ _ Hy) as [[E ->]|[Hq Hy']].
      * by apply (Hb i x p).
      * by apply (Ha i Hi Hih x y).
  - intros i x y Hi Hpar Hh' Hx Hy.
    rewrite list_lookup_insert_ne in Hy by lia.
    assert (Hyp : comp y p = false).
    { apply (Ha ((h - 1) / 2)); [done | lia | done | done]. }
    destruct (lookup_insert_hole _ _ _ _ _ Hx) as [[-> ->]|[Hih Hx']]; [done|].
    apply comp_negtrans with p; [done|].
    apply (Ha i Hi Hih x p); [done | by rewrite Hpar].
  - intros i x Hi Hpar Hx.
    destruct (lookup_insert_hole _ _ _ _ _ Hx) as [[-> ->]|[Hih Hx']]; [done|].
    apply comp_negtrans with p; [done|].
    apply (Ha i Hi Hih x p); [done | by rewrite Hpar].
Qed.

Lemma push_heap_loop_heap fuel : forall c h v,
  h <= fuel -> h < length c -> hole_inv comp c h v ->
  is_heap comp (push_heap_loop comp fuel c h 0 v).
Proof.
  induction fuel as [|fuel IH]; intros c h v Hf Hl Hinv; cbn [push_heap_loop].
  - apply hole_fill_heap; [done | lia].
  - destruct (lookup_lt_is_Some_2 c ((h - 1) / 2)) as [p Hp]; [lia|].
    rewrite Hp. destruct (0 <? h) eqn:E0; cbn [andb].
    + apply Nat.ltb_lt in E0. destruct (comp p v) eqn:Epv.
      * apply IH; [lia | rewrite length_insert; lia | by apply hole_move_up].
      * apply hole_fill_heap; [done|]. intros _ p' Hp'. congruence.
    + apply Nat.ltb_ge in E0. apply hole_fill_heap; [done | lia].
Qed.

(** *** The multiset of elements *)

Lemma insert_as_delete (c : list A) : forall i x y,
  c !! i = Some y -> <[i := x]> c ≡ₚ x :: delete i c.
Proof.
  induction c as [|a c IH]; intros [|i] x y H; try done.
  cbn. rewrite (IH i x y H). apply perm_swap.
Qed.

Lemma insert_swap_perm (c : list A) i j a b :
  c !! i = Some a -> c !! j = Some b -> i <> j ->
  <[j := a]> (<[i := b]> c) ≡ₚ c.
Proof.
  intros Hi Hj Hne.
  assert (H1 : <[i := b]> c ≡ₚ b :: delete i c) by by apply insert_as_delete with a.
  assert (Hj' : <[i := b]> c !! j = Some b) by by rewrite list_lookup_insert_ne.
  etrans; [apply (insert_as_delete _ j a b Hj')|].
  etrans; [|symmetry; apply (delete_Permutation c i a Hi)].
  apply Permutation_cons; [done|].
  apply Permutation_cons_inv with b.
  etrans; [symmetry; apply (delete_Permutation _ j b Hj') | exact H1].
Qed.

Lemma hole_move_perm (c : list A) h h' x v :
  c !! h' = Some x -> h <> h' -> h < length c ->
  <[h' := v]> (<[h := x]> c) ≡ₚ <[h := v]> c.
Proof.
  intros Hx Hne Hl.
  rewrite <- (list_insert_insert_eq c h x v).
  apply insert_swap_perm; [|by rewrite list_lookup_insert_ne|done].
  by apply list_lookup_insert_eq.
Qed.

Lemma push_heap_loop_perm fuel : forall c h v,
  h <= fuel -> h < length c ->
  push_heap_loop comp fuel c h 0 v ≡ₚ <[h := v]> c.
Proof.
  induction fuel as [|fuel IH]; intros c h v Hf Hl; cbn [push_heap_loop]; [done|].
  destruct (c !! ((h - 1) / 2)) as [p|] eqn:Hp; [|done].
  destruct (0 <? h) eqn:E0; cbn [andb]; [|done].
  apply Nat.ltb_lt in E0. destruct (comp p v); [|done].
  rewrite IH by (rewrite ?length_insert; lia).
  apply hole_move_perm; [done | lia | done].
Qed.

(** *** Moving the hole down *)

Lemma child_move_heap c h ch x :
  is_heap comp c -> c !! ch = Some x -> (ch - 1) / 2 = h -> 0 < ch ->
  (forall s y, 0 < s -> (s - 1) / 2 = h -> c !! s = Some y -> comp x y = false) ->
  is_heap comp (<[h := x]> c).
Proof.
  intros Hh Hx Hpar Hch Hdom i Hi X Y HX HY.
  assert (Hlen : ch < length c) by by apply lookup_lt_Some in Hx.
  destruct (lookup_insert_hole _ _ _ _ _ HX) as [[-> ->]|[Hne HX']].
  - rewrite list_lookup_insert_ne in HY by lia.
    destruct (lookup_lt_is_Some_2 c h) as [z Hz]; [lia|].
    apply comp_negtrans with z.
    + by apply (Hh h Hi z Y).
    + apply (Hh ch Hch x z); [done | by rewrite Hpar].
  - destruct (lookup_insert_hole _ _ _ _ _ HY) as [[E ->]|[Hq HY']].
    + by apply (Hdom i X).
    + by apply (Hh i Hi X Y).
Qed.

Lemma adjust_heap_loop_spec fuel : forall c h c' h',
  adjust_heap_loop comp fuel c h (length c) = (c', h') ->
  is_heap comp c -> h < length c ->
  is_heap comp c' /\ length c' = length c /\ h' < length c /\
  (forall v, <[h' := v]> c' ≡ₚ <[h := v]> c) /\
  ((length c - 1) / 2 <= fuel + h -> (length c - 1) / 2 <= h').
Proof.
  induction fuel as [|fuel IH]; intros c h c' h' E Hh Hl; cbn [adjust_heap_loop] in E.
  { injection E as <- <-. repeat split; [done | done | done | lia]. }
  destruct (h <? (length c - 1) / 2) eqn:Eh.
  2:{ apply Nat.ltb_ge in Eh. injection E as <- <-. repeat split; done. }
  apply Nat.ltb_lt in Eh.
  destruct (lookup_lt_is_Some_2 c (2 * (h + 1))) as [r Hr]; [lia|].
  destruct (lookup_lt_is_Some_2 c (2 * (h + 1) - 1)) as [l Hlf]; [lia|].
  rewrite Hr, Hlf in E.
  assert (Hkids : forall s, 0 < s -> (s - 1) / 2 = h ->
            s = 2 * (h + 1) \/ s = 2 * (h + 1) - 1) by (intros; lia).
  destruct (comp r l) eqn:Erl.
  - replace (length c) with (length (<[h := l]> c)) in E by apply length_insert.
    apply IH in E as (H1 & H2 & H3 & H4 & H5);
      rewrite ?length_insert in *; [|..|lia].
    + repeat split; [done | done | done | | lia].
      intros v. rewrite H4. apply hole_move_perm; [done | lia | done].
    + apply (child_move_heap c h (2 * (h + 1) - 1)); [done | done | lia | lia |].
      intros s y Hs Hp Hy. destruct (Hkids s Hs Hp) as [-> | ->].
      * rewrite Hr in Hy. injection Hy as <-. by apply comp_asym.
      * rewrite Hlf in Hy. injection Hy as <-. apply comp_irrefl.
  - replace (length c) with (length (<[h := r]> c)) in E by apply length_insert.
    apply IH in E as (H1 & H2 & H3 & H4 & H5);
      rewrite ?length_insert in *; [|..|lia].
    + repeat split; [done | done | done | | lia].
      intros v. rewrite H4. apply hole_move_perm; [done | lia | done].
    + apply (child_move_heap c h (2 * (h + 1))); [done | done | lia | lia |].
      intros s y Hs Hp Hy. destruct (Hkids s Hs Hp) as [-> | ->].
      * rewrite Hr in Hy. injection Hy as <-. apply comp_irrefl.
      * rewrite Hlf in Hy. by injection Hy as <-.
Qed.

Lemma hole_inv_leaf c h v : is_heap comp c -> length c <= 2 * h + 1 -> hole_inv comp c h v.
Proof.
  intros Hh Hl. split.
  - intros i Hi _. by apply Hh.
  - intros i x y Hi Hp _ Hx _. apply lookup_lt_Some in Hx. lia.
  - intros i x Hi Hp Hx. apply lookup_lt_Some in Hx. lia.
Qed.

Lemma adjust_heap_spec c v :
  is_heap comp c -> c <> [] ->
  is_heap comp (adjust_heap comp c 0 (length c) v) /\
  adjust_heap comp c 0 (length c) v ≡ₚ <[0 := v]> c.
Proof.
  intros Hh Hne. unfold adjust_heap.
  assert (Hl : 0 < length c) by (destruct c; [done | cbn; lia]).
  destruct (adjust_heap_loop comp (length c) c 0 (length c)) as [c1 h1] eqn:E.
  apply adjust_heap_loop_spec in E as (H1 & H2 & H3 & H4 & H5); [|done|done].
  specialize (H5 ltac:(lia)).
  destruct (Nat.even (length c) && (2 <=? length c) && (h1 =? (length c - 2) / 2)) eqn:Ec.
  - apply andb_true_iff in Ec as [Ec Eh]. apply andb_true_iff in Ec as [Ev E2].
    apply Nat.even_spec in Ev as [m Hm]. apply Nat.leb_le in E2. apply Nat.eqb_eq in Eh.
    destruct (lookup_lt_is_Some_2 c1 (2 * (h1 + 1) - 1)) as [l Hlf]; [lia|].
    rewrite Hlf.
    assert (Hh2 : is_heap comp (<[h1 := l]> c1)).
    { apply (child_move_heap c1 h1 (2 * (h1 + 1) - 1)); [done | done | lia | lia |].
      intros s y Hs Hp Hy.
      assert (s = 2 * (h1 + 1) - 1) as ->.
      { apply lookup_lt_Some in Hy. lia. }
      rewrite Hlf in Hy. injection Hy as <-. apply comp_irrefl. }
    split.
    + apply push_heap_loop_heap; [lia | rewrite length_insert; lia |].
      apply hole_inv_leaf; [done | rewrite length_insert; lia].
    + rewrite push_heap_loop_perm by (rewrite ?length_insert; lia).
      rewrite <- (H4 v). apply hole_move_perm; [done | lia | lia].
  - assert (Hleaf : length c1 <= 2 * h1 + 1).
    { rewrite H2. apply andb_false_iff in Ec as [Ec | Eh].
      - apply andb_false_iff in Ec as [Ev | E2].
        + rewrite <- Nat.negb_odd in Ev. apply negb_false_iff in Ev.
          apply Nat.odd_spec in Ev as [m Hm]. lia.
        + apply Nat.leb_gt in E2. lia.
      - apply Nat.eqb_neq in Eh. lia. }
    split.
    + apply push_heap_loop_heap; [lia | lia |]. by apply hole_inv_leaf.
    + rewrite push_heap_loop_perm by lia. apply H4.
Qed.

Lemma length_adjust_heap_loop fuel : forall c h len c' h',
  adjust_heap_loop comp fuel c h len = (c', h') -> length c' = length c.
Proof.
  induction fuel as [|fuel IH]; intros c h len c' h' E; cbn [adjust_heap_loop] in E.
  { by injection E as <- <-. }
  destruct (h <? (len - 1) / 2); [|by injection E as <- <-].
  destruct (c !! (2 * (h + 1))) as [r|]; [|by injection E as <- <-].
  destruct (c !! (2 * (h + 1) - 1)) as [l|]; [|by injection E as <- <-].
  destruct (comp r l); apply IH in E; by rewrite length_insert in E.
Qed.

Lemma length_adjust_heap c h len v :
  length (adjust_heap comp c h len v) = length c.
Proof.
  unfold adjust_heap.
  destruct (adjust_heap_loop comp len c h len) as [c1 h1] eqn:E.
  apply length_adjust_heap_loop in E.
  destruct (Nat.even len && (2 <=? len) && (h1 =? (len - 2) / 2)).
  - destruct (c1 !! (2 * (h1 + 1) - 1));
      by rewrite length_push_heap_loop, ?length_insert.
  - by rewrite length_push_heap_loop.
Qed.

(** *** The positions past [len] are not touched *)

Lemma push_heap_loop_app fuel : forall c k h top v,
  h < length c ->
  push_heap_loop comp fuel (c ++ k) h top v = push_heap_loop comp fuel c h top v ++ k.
Proof.
  induction fuel as [|fuel IH]; intros c k h top v Hl; cbn [push_heap_loop].
  { by apply insert_app_l. }
  rewrite lookup_app_l by lia.
  destruct (c !! ((h - 1) / 2)) as [p|]; [|by apply insert_app_l].
  destruct ((top <? h) && comp p v); [|by apply insert_app_l].
  rewrite insert_app_l by done. apply IH. rewrite length_insert. lia.
Qed.

Lemma adjust_heap_loop_app fuel : forall c k h len,
  len <= length c -> h < length c ->
  adjust_heap_loop comp fuel (c ++ k) h len =
    (let '(c', h') := adjust_heap_loop comp fuel c h len in (c' ++ k, h')).
Proof.
  induction fuel as [|fuel IH]; intros c k h len Hlen Hh; cbn [adjust_heap_loop]; [done|].
  destruct (h <? (len - 1) / 2) eqn:Eh; [|done].
  apply Nat.ltb_lt in Eh.
  rewrite !lookup_app_l by lia.
  destruct (c !! (2 * (h + 1))) as [r|]; [|done].
  destruct (c !! (2 * (h + 1) - 1)) as [l|]; [|done].
  destruct (comp r l); rewrite insert_app_l by done;
    apply IH; rewrite length_insert; lia.
Qed.

Lemma adjust_heap_loop_bound fuel : forall c h len c' h',
  adjust_heap_loop comp fuel c h len = (c', h') -> h < len -> h' < len.
Proof.
  induction fuel as [|fuel IH]; intros c h len c' h' E Hh; cbn [adjust_heap_loop] in E.
  { by injection E as <- <-. }
  destruct (h <? (len - 1) / 2) eqn:Eh; [|by injection E as <- <-].
  apply Nat.ltb_lt in Eh.
  destruct (c !! (2 * (h + 1))) as [r|]; [|by injection E as <- <-].
  destruct (c !! (2 * (h + 1) - 1)) as [l|]; [|by injection E as <- <-].
  destruct (comp r l); apply IH in E; lia.
Qed.

Lemma adjust_heap_app c k v :
  c <> [] ->
  adjust_heap comp (c ++ k) 0 (length c) v = adjust_heap comp c 0 (length c) v ++ k.
Proof.
  intros Hne. unfold adjust_heap.
  assert (Hl : 0 < length c) by (destruct c; [done | cbn; lia]).
  rewrite adjust_heap_loop_app by lia.
  destruct (adjust_heap_loop comp (length c) c 0 (length c)) as [c1 h1] eqn:E.
  pose proof (length_adjust_heap_loop _ _ _ _ _ _ E) as H1.
  pose proof (adjust_heap_loop_bound _ _ _ _ _ _ E Hl) as H2.
  destruct (Nat.even (length c) && (2 <=? length c) && (h1 =? (length c - 2) / 2)) eqn:Ec.
  - apply andb_true_iff in Ec as [Ec Eh]. apply andb_true_iff in Ec as [Ev E2].
    apply Nat.even_spec in Ev as [m Hm]. apply Nat.leb_le in E2. apply Nat.eqb_eq in Eh.
    rewrite lookup_app_l by lia.
    destruct (c1 !! (2 * (h1 + 1) - 1)) as [l|].
    + rewrite insert_app_l by lia. apply push_heap_loop_app. rewrite length_insert. lia.
    + apply push_heap_loop_app. lia.
  - apply push_heap_loop_app. lia.
Qed.

(** *** The queue operations *)

Lemma pq_push_heap x c : is_heap comp c -> is_heap comp (pq_push comp x c).
Proof.
  intros Hh. unfold pq_push, push_heap.
  replace (length (c ++ [x]) - 1) with (length c) by (rewrite length_app; cbn; lia).
  rewrite (list_lookup_middle c [] x) by done.
  apply push_heap_loop_heap; [rewrite length_app; lia | rewrite length_app; cbn; lia |].
  split.
  - intros i Hi Hne X Y HX HY.
    apply lookup_lt_Some in HX as Hl. rewrite length_app in Hl. cbn in Hl.
    rewrite lookup_app_l in HX, HY by lia. by apply (Hh i Hi X Y).
  - intros i X Y Hi Hp _ HX _. apply lookup_lt_Some in HX.
    rewrite length_app in HX. cbn in HX. lia.
  - intros i X Hi Hp HX. apply lookup_lt_Some in HX.
    rewrite length_app in HX. cbn in HX. lia.
Qed.

Lemma pq_push_perm x c : pq_push comp x c ≡ₚ x :: c.
Proof.
  unfold pq_push, push_heap.
  replace (length (c ++ [x]) - 1) with (length c) by (rewrite length_app; cbn; lia).
  rewrite (list_lookup_middle c [] x) by done.
  rewrite push_heap_loop_perm by (rewrite length_app; cbn; lia).
  rewrite list_insert_id by by apply list_lookup_middle.
  by rewrite Permutation_app_comm.
Qed.

Lemma pq_pop_snoc body value :
  pq_pop comp (body ++ [value]) =
    match body with
    | [] => []
    | _ :: _ => adjust_heap comp body 0 (length body) value
    end.
Proof.
  unfold pq_pop, pop_heap, pop_back.
  destruct body as [|front rest]; [done|].
  set (body := front :: rest).
  assert (Hlen : length (body ++ [value]) = S (length body))
    by (rewrite length_app; cbn; lia).
  rewrite Hlen.
  replace (1 <? S (length body)) with true by (symmetry; apply Nat.ltb_lt; cbn; lia).
  replace (S (length body) - 1) with (length body) by lia.
  rewrite (list_lookup_middle body [] value) by done.
  replace ((body ++ [value]) !! 0) with (Some front) by done.
  replace (<[length body := front]> (body ++ [value])) with (body ++ [front]).
  2:{ replace (length body) with (length body + 0) at 1 by lia.
      by rewrite insert_app_r. }
  rewrite adjust_heap_app by done.
  rewrite length_app, length_adjust_heap. cbn [length].
  replace (length body + 1 - 1) with (length (adjust_heap comp body 0 (length body) value)).
  2:{ rewrite length_adjust_heap. lia. }
  apply take_app_length.
Qed.

Lemma pq_pop_spec c t :
  is_heap comp c -> pq_top c = Some t ->
  is_heap comp (pq_pop comp c) /\ c ≡ₚ t :: pq_pop comp c.
Proof.
  intros Hh Ht.
  assert (Hne : c <> []) by (intros ->; done).
  destruct (exists_last Hne) as (body & value & ->).
  rewrite pq_pop_snoc. destruct body as [|front rest].
  - cbn in Ht. injection Ht as <-. split; [apply is_heap_nil | done].
  - cbn in Ht. injection Ht as <-.
    destruct (adjust_heap_spec (front :: rest) value) as [H1 H2];
      [by apply is_heap_prefix with [value] | done |].
    split; [done|]. rewrite H2. cbn.
    apply Permutation_cons; [done|]. apply (Permutation_app_comm rest [value]).
Qed.

Lemma length_pq_push x c : length (pq_push comp x c) = S (length c).
Proof. by rewrite (Permutation_length (pq_push_perm x c)). Qed.

End HeapFacts.

Example heap_try :
  let q := fold_left (fun q x => pq_push Nat.ltb x q) [3; 1; 4; 1; 5; 9; 2; 6] [] in
  (pq_top q, pq_top (pq_pop Nat.ltb q), pq_pop Nat.ltb (pq_pop Nat.ltb q))
  = (Some 9, Some 6, [5; 4; 3; 1; 1; 2]).
Proof. vm_compute. reflexivity. Qed.

(** ** Facts about the pool *)

Section PoolFacts.
Context {Task : Type}.
Implicit Types (p : @PriorityThreadPool Task) (s : @system Task).
Implicit Types (r : @TaskPriority Task) (q : @TasksPriorityQueue Task).
Implicit Types (w : @worker Task) (ts : list (@worker Task)).

Lemma TaskPriorityComparator_asym pf (a b : @TaskPriority Task) :
  TaskPriorityComparator pf a b = true -> TaskPriorityComparator pf b a = false.
Proof. unfold TaskPriorityComparator. destruct pf; cbn; lia. Qed.

Lemma TaskPriorityComparator_negtrans pf (a b c : @TaskPriority Task) :
  TaskPriorityComparator pf a b = false -> TaskPriorityComparator pf b c = false ->
  TaskPriorityComparator pf a c = false.
Proof. unfold TaskPriorityComparator. destruct pf; cbn; lia. Qed.

(** On both platforms the comparator is the strict abstract order. *)
Lemma TaskPriorityComparator_rank pf (a b : @TaskPriority Task) :
  platform_ordered pf ->
  TaskPriorityComparator pf a b = (rank (snd a) <? rank (snd b)).
Proof.
  unfold TaskPriorityComparator. intros H.
  destruct pf as [|w]; destruct a as [ta [] ], b as [tb [] ]; cbn in *;
    try reflexivity; destruct w; cbn in *;
    match goal with
    | |- ?l = true => apply Z.ltb_lt; lia
    | |- ?l = false => apply Z.ltb_ge; lia
    end.
Qed.

Lemma mutex_inv_same ts m i w w' :
  mutex_inv ts m -> ts !! i = Some w -> holds_mutex w' = holds_mutex w ->
  mutex_inv (<[i := w']> ts) m.
Proof.
  intros H Hi Hw j x Hx.
  destruct (lookup_insert_hole _ _ _ _ _ Hx) as [[-> ->]|[Hne Hx']].
  - rewrite Hw. by apply H.
  - by apply H.
Qed.

Lemma mutex_inv_acquire ts i w w' :
  mutex_inv ts None -> ts !! i = Some w -> holds_mutex w' = true ->
  mutex_inv (<[i := w']> ts) (Some i).
Proof.
  intros H Hi Hw j x Hx.
  destruct (lookup_insert_hole _ _ _ _ _ Hx) as [[-> ->]|[Hne Hx']].
  - by rewrite Hw.
  - split.
    + intros Hh. by apply (H j x Hx') in Hh.
    + intros [=]. congruence.
Qed.

Lemma mutex_inv_release ts m i w w' :
  mutex_inv ts m -> ts !! i = Some w -> holds_mutex w = true -> holds_mutex w' = false ->
  mutex_inv (<[i := w']> ts) None.
Proof.
  intros H Hi Hw Hw' j x Hx.
  apply (H i w Hi) in Hw as Hm.
  destruct (lookup_insert_hole _ _ _ _ _ Hx) as [[-> ->]|[Hne Hx']].
  - by rewrite Hw'.
  - split; [|done]. intros Hh. apply (H j x Hx') in Hh. congruence.
Qed.

Lemma lookup_notify_all ts j :
  notify_all ts !! j = (fun w => if is_blocked w then Woken else w) <$> ts !! j.
Proof. revert j. induction ts as [|w ts IH]; intros [|j]; cbn; auto. Qed.

Lemma mutex_inv_notify_all ts m : mutex_inv ts m -> mutex_inv (notify_all ts) m.
Proof.
  intros H j x Hx. rewrite lookup_notify_all in Hx.
  destruct (ts !! j) as [w|] eqn:Hw; [|done]. cbn in Hx. injection Hx as <-.
  rewrite <- (H j w Hw). by destruct w.
Qed.

Lemma blocked_from_spec ts : forall k i,
  i ∈ blocked_from k ts -> exists j, i = k + j /\ ts !! j = Some Blocked.
Proof.
  induction ts as [|w ts IH]; intros k i Hi; cbn in Hi.
  - by apply not_elem_of_nil in Hi.
  - apply elem_of_app in Hi as [Hi|Hi].
    + destruct w; cbn in Hi; try by apply not_elem_of_nil in Hi.
      apply list_elem_of_singleton in Hi as ->. exists 0. split; [lia | done].
    + apply IH in Hi as (j & -> & Hj). exists (S j). split; [lia | done].
Qed.

(** [notify_one] either leaves the threads alone or turns one blocked
    thread into a woken one. *)
Lemma notify_one_spec pick ts :
  notify_one pick ts = ts \/
  exists i, ts !! i = Some Blocked /\ notify_one pick ts = <[i := Woken]> ts.
Proof.
  unfold notify_one.
  destruct (blocked_from 0 ts !! (pick mod length (blocked_from 0 ts))) as [i|] eqn:E;
    [|by left].
  right. apply list_elem_of_lookup_2 in E.
  apply blocked_from_spec in E as (j & -> & Hj). by exists j.
Qed.

Lemma mutex_inv_notify_one pick ts m :
  mutex_inv ts m -> mutex_inv (notify_one pick ts) m.
Proof.
  intros H. destruct (notify_one_spec pick ts) as [-> | (i & Hi & ->)]; [done|].
  by apply mutex_inv_same with Blocked.
Qed.

Lemma length_notify_one pick ts : length (notify_one pick ts) = length ts.
Proof.
  destruct (notify_one_spec pick ts) as [-> | (i & Hi & ->)]; [done|].
  apply length_insert.
Qed.

Lemma construct_members (n : N) :
  N.iter n (fun p => set_threads (m_threads p ++ [AtLock]) p) default_members =
  {| m_quit := false; m_tasks := []; m_threads := replicate (N.to_nat n) AtLock;
     m_mutex := None |}.
Proof.
  induction n as [|n IH] using N.peano_ind; [done|].
  rewrite N.iter_succ, IH, N2Nat.inj_succ, replicate_S_end. done.
Qed.

Lemma construct_Constructed (n : N) p :
  construct n = Constructed p ->
  (1 <= n <= max_size)%N /\
  p = {| m_quit := false; m_tasks := []; m_threads := replicate (N.to_nat n) AtLock;
         m_mutex := None |}.
Proof.
  unfold construct, reserve. destruct (n <=? 0)%N eqn:En; [done|].
  destruct (max_size <? n)%N eqn:Em; [done|].
  apply N.leb_gt in En. apply N.ltb_ge in Em.
  intros [= <-]. split; [lia | apply construct_members].
Qed.

Lemma fold_push_heap pf tasks : forall q,
  is_heap (TaskPriorityComparator pf) q ->
  is_heap (TaskPriorityComparator pf)
    (fold_left (fun q task => pq_push (TaskPriorityComparator pf) task q) tasks q).
Proof.
  induction tasks as [|t tasks IH]; intros q Hq; cbn; [done|].
  apply IH, pq_push_heap;
    [apply TaskPriorityComparator_asym | apply TaskPriorityComparator_negtrans | done].
Qed.

Lemma worker_step_inv pf os i p p' ev :
  pool_inv pf p -> worker_step pf os i p = Some (p', ev) -> pool_inv pf p'.
Proof.
  intros [Hh Hm] E. unfold worker_step in E.
  destruct (m_threads p !! i) as [w|] eqn:Hw; [|done].
  destruct w.
  - destruct (m_mutex p) eqn:Em; [done|]. injection E as <- <-.
    split; [done|]. cbn. by apply mutex_inv_acquire with AtLock.
  - destruct (m_quit p || negb (pq_empty (m_tasks p))); injection E as <- <-;
      (split; [done|]); cbn; by apply mutex_inv_same with AtPredicate.
  - injection E as <- <-. split; [done|]. cbn.
    by apply mutex_inv_release with (m_mutex p) AtWait.
  - done.
  - destruct (m_mutex p) eqn:Em; [done|]. injection E as <- <-.
    split; [done|]. cbn. by apply mutex_inv_acquire with Woken.
  - destruct (pq_empty (m_tasks p)) eqn:Ee.
    + destruct (m_quit p); injection E as <- <-; (split; [done|]); cbn;
        by apply mutex_inv_release with (m_mutex p) Dequeuing.
    + destruct (pq_top (m_tasks p)) as [t|] eqn:Et; [|done]. injection E as <- <-.
      split; cbn.
      * apply pq_pop_spec with t;
          [apply TaskPriorityComparator_asym | apply TaskPriorityComparator_negtrans
          | done | done].
      * by apply mutex_inv_release with (m_mutex p) Dequeuing.
  - injection E as <- <-. split; [done|]. cbn. by apply mutex_inv_same with (Adapting task).
  - injection E as <- <-. split; [done|]. cbn. by apply mutex_inv_same with (Executing task).
  - done.
Qed.

Lemma step_inv pf a s s' ev :
  pool_inv pf (pool s) -> step pf a s = Some (s', ev) -> pool_inv pf (pool s').
Proof.
  intros Hinv E. destruct a as [i os| |task priority pick|tasks pick|task priority|tasks|pick]; cbn in E.
  - destruct (worker_step pf os i (pool s)) as [[p' ev']|] eqn:Ew; [|done].
    injection E as <- <-. by apply worker_step_inv in Ew.
  - unfold destructor_step in E. destruct Hinv as [Hh Hm].
    destruct (caller s).
    + injection E as <- <-. by split.
    + injection E as <- <-. split; [done|]. cbn. by apply mutex_inv_notify_all.
    + destruct (forallb is_terminal (m_threads (pool s))); [|done].
      injection E as <- <-. by split.
    + done.
  - destruct (caller s); try done. destruct (mutex_free (pool s)); [|done].
    injection E as <- <-. destruct Hinv as [Hh Hm]. split; cbn.
    + apply pq_push_heap;
        [apply TaskPriorityComparator_asym | apply TaskPriorityComparator_negtrans | done].
    + by apply mutex_inv_notify_one.
  - destruct (caller s); try done. destruct (mutex_free (pool s)); [|done].
    injection E as <- <-. destruct Hinv as [Hh Hm]. split; cbn.
    + by apply fold_push_heap.
    + by apply mutex_inv_notify_one.
  - destruct (caller s); try done. destruct (mutex_free (pool s)); [|done].
    injection E as <- <-. destruct Hinv as [Hh Hm]. split; cbn; [|done].
    apply pq_push_heap;
      [apply TaskPriorityComparator_asym | apply TaskPriorityComparator_negtrans | done].
  - destruct (caller s); try done. destruct (mutex_free (pool s)); [|done].
    injection E as <- <-. destruct Hinv as [Hh Hm]. split; cbn; [|done].
    by apply fold_push_heap.
  - destruct (caller s); try done.
    injection E as <- <-. destruct Hinv as [Hh Hm]. split; cbn; [done|].
    by apply mutex_inv_notify_one.
Qed.

Lemma reachable_inv pf s : reachable pf s -> pool_inv pf (pool s).
Proof.
  induction 1 as [n p Hc | s a s' ev _ IH Hs].
  - apply construct_Constructed in Hc as [_ ->]. split; cbn.
    + apply is_heap_nil.
    + intros j w Hw. apply lookup_replicate_1 in Hw as [-> _]. done.
  - by apply step_inv in Hs.
Qed.

(** ** The queue and the public methods *)

Lemma pq_empty_false_top q :
  pq_empty q = false -> exists r, pq_top q = Some r.
Proof. destruct q as [|r q]; [done|]. by exists r. Qed.

Lemma lookup_set_worker i w p v :
  m_threads p !! i = Some v -> <[i := w]> (m_threads p) !! i = Some w.
Proof. intros H. apply list_lookup_insert_eq. by apply lookup_lt_Some in H. Qed.

(** C2: in every reachable state with a non-empty queue, the dequeue
    step of a worker succeeds, removes exactly one record from the
    queue and hands it to the worker, and no pending record has a
    greater priority in the order Realtime > High > Normal > Low >
    Lowest.  This holds on Linux with the values of the header, and on
    Windows whenever the SDK's values grow with the urgency. *)
Theorem dequeue_returns_maximal pf s i os :
  platform_ordered pf -> reachable pf s ->
  m_threads (pool s) !! i = Some Dequeuing ->
  pq_empty (m_tasks (pool s)) = false ->
  exists r p',
    worker_step pf os i (pool s) = Some (p', []) /\
    m_threads p' !! i = Some (Adapting r) /\
    m_tasks (pool s) ≡ₚ r :: m_tasks p' /\
    forall r', r' ∈ m_tasks (pool s) -> rank (snd r') <= rank (snd r).
Proof.
  intros Hpf Hreach Hw He.
  destruct (reachable_inv pf s Hreach) as [Hh _].
  destruct (pq_empty_false_top _ He) as [r Hr].
  destruct (pq_pop_spec (TaskPriorityComparator pf)
              (TaskPriorityComparator_asym pf) (TaskPriorityComparator_negtrans pf)
              _ r Hh Hr) as [_ Hperm].
  exists r. eexists. unfold worker_step. rewrite Hw, He, Hr. split; [done|].
  split; [cbn; by apply lookup_set_worker with Dequeuing|].
  split; [done|].
  intros r' Hin. apply list_elem_of_lookup_1 in Hin as [j Hj].
  pose proof (heap_front_greatest (TaskPriorityComparator pf)
                (TaskPriorityComparator_asym pf) (TaskPriorityComparator_negtrans pf)
                _ r Hh Hr j r' Hj) as Hc.
  rewrite TaskPriorityComparator_rank in Hc by done.
  apply Nat.ltb_ge in Hc. done.
Qed.

Lemma m_tasks_add_span tasks pick pf p :
  m_tasks (add_span tasks pick pf p) =
  fold_left (fun q task => pq_push (TaskPriorityComparator pf) task q) tasks (m_tasks p).
Proof. done. Qed.

(** C3: a batch submission leaves the queue in the state that single
    submissions of the same records, in the same order, leave it in;
    the shutdown flag, the mutex and the number of workers agree too.
    The two differ only in how many notifications are sent. *)
Theorem add_span_equiv_repeated_add pf (tasks : list (TaskPriority * nat)) pick p :
  let batch := add_span (map fst tasks) pick pf p in
  let singles := fold_left (fun p tk => add (fst (fst tk)) (snd (fst tk)) (snd tk) pf p) tasks p in
  m_tasks batch = m_tasks singles /\
  m_quit batch = m_quit singles /\
  m_mutex batch = m_mutex singles /\
  length (m_threads batch) = length (m_threads singles).
Proof.
  cbn zeta. rewrite m_tasks_add_span.
  assert (Hlen : length (m_threads (add_span (map fst tasks) pick pf p)) = length (m_threads p))
    by (cbn; apply length_notify_one).
  rewrite Hlen. change (m_quit (add_span (map fst tasks) pick pf p)) with (m_quit p).
  change (m_mutex (add_span (map fst tasks) pick pf p)) with (m_mutex p).
  clear Hlen. revert p. induction tasks as [|[[t pr] k] tasks IH]; intros p; [done|].
  cbn [map fold_left fst snd].
  destruct (IH (add t pr k pf p)) as (H1 & H2 & H3 & H4).
  rewrite <- H1, <- H2, <- H3, <- H4. repeat split. cbn. symmetry. apply length_notify_one.
Qed.

(** C9: [hasRemainingTasks] answers true exactly when [remainingTasks]
    answers a positive count, and both hand the pool back as it was. *)
Theorem hasRemainingTasks_iff_remainingTasks_positive p :
  (fst (hasRemainingTasks p) = true <-> (0 < fst (remainingTasks p))%N) /\
  snd (hasRemainingTasks p) = p /\
  snd (remainingTasks p) = p.
Proof.
  split; [|done]. cbn. unfold pq_size. destruct (m_tasks p); cbn; split; try done; lia.
Qed.

Lemma fold_push_perm pf tasks : forall q,
  fold_left (fun q task => pq_push (TaskPriorityComparator pf) task q) tasks q ≡ₚ tasks ++ q.
Proof.
  induction tasks as [|t tasks IH]; intros q; cbn [fold_left]; [done|].
  rewrite IH, pq_push_perm. cbn. by rewrite Permutation_middle.
Qed.

Lemma notify_one_threads pick ts j w :
  ts !! j = Some w ->
  notify_one pick ts !! j = Some w \/ (w = Blocked /\ notify_one pick ts !! j = Some Woken).
Proof.
  intros Hw. destruct (notify_one_spec pick ts) as [-> | (i & Hi & ->)]; [by left|].
  destruct (decide (i = j)) as [->|Hne].
  - right. split; [congruence|]. apply list_lookup_insert_eq. by apply lookup_lt_Some in Hw.
  - left. by rewrite list_lookup_insert_ne.
Qed.

(** C10: a single submission adds exactly its record to the queue and a
    batch exactly its records, so the size grows by one and by the
    length of the batch and every pending record stays; the shutdown
    flag and the mutex are as before, and so are the workers, except
    that one blocked worker may have been woken. *)
Theorem add_frame pf p task priority tasks pick :
  let one := add task priority pick pf p in
  let batch := add_span tasks pick pf p in
  (m_tasks one ≡ₚ (task, priority) :: m_tasks p /\
   fst (remainingTasks one) = (fst (remainingTasks p) + 1)%N /\
   same_frame p one) /\
  (m_tasks batch ≡ₚ tasks ++ m_tasks p /\
   fst (remainingTasks batch) = (fst (remainingTasks p) + N.of_nat (length tasks))%N /\
   same_frame p batch).
Proof.
  cbn zeta. split.
  - assert (H : m_tasks (add task priority pick pf p) ≡ₚ (task, priority) :: m_tasks p)
      by apply pq_push_perm.
    split; [done|]. split.
    + cbn [remainingTasks fst]. unfold pq_size. rewrite (Permutation_length H). cbn. lia.
    + repeat split; [apply length_notify_one|].
      intros j w Hw. by apply notify_one_threads.
  - assert (H : m_tasks (add_span tasks pick pf p) ≡ₚ tasks ++ m_tasks p)
      by (rewrite m_tasks_add_span; apply fold_push_perm).
    split; [done|]. split.
    + cbn [remainingTasks fst]. unfold pq_size.
      rewrite (Permutation_length H), length_app. lia.
    + repeat split; [apply length_notify_one|].
      intros j w Hw. by apply notify_one_threads.
Qed.

(** C4, amended: construction throws [invalid_argument] exactly for the
    worker count 0 and [length_error] exactly for the counts above the
    [max_size] of the vector of threads, and in both cases no thread has
    been pushed into [m_threads]; for every count from 1 to [max_size]
    it completes with exactly that many workers, all waiting at the top
    of their loop, an empty queue and the shutdown flag clear. *)
Theorem construct_outcomes (maxThreads : size_t) :
  match construct (Task := Task) maxThreads with
  | Thrown e members =>
      m_threads members = [] /\
      ((maxThreads = 0%N /\
        e = invalid_argument "maxThreads must be greater than 0!") \/
       ((max_size < maxThreads)%N /\ e = length_error "vector::reserve"))
  | Constructed p =>
      (1 <= maxThreads <= max_size)%N /\
      length (m_threads p) = N.to_nat maxThreads /\
      Forall (fun w => w = AtLock /\ phase_of w = Waiting) (m_threads p) /\
      m_tasks p = [] /\ m_quit p = false /\ m_mutex p = None
  end.
Proof.
  unfold construct, reserve. destruct (maxThreads <=? 0)%N eqn:E.
  - apply N.leb_le in E. split; [done|]. left. split; [lia | done].
  - apply N.leb_gt in E. destruct (max_size <? maxThreads)%N eqn:Em.
    + apply N.ltb_lt in Em. split; [done|]. right. by split.
    + apply N.ltb_ge in Em. rewrite construct_members. cbn.
      split; [lia|]. split; [apply length_replicate|]. split; [|done].
      apply Forall_lookup. intros j w Hw. apply lookup_replicate_1 in Hw as [-> _]. done.
Qed.

(** ** The worker loop *)

Lemma worker_step_other pf os j p p' ev i :
  worker_step pf os j p = Some (p', ev) -> j <> i ->
  m_threads p' !! i = m_threads p !! i.
Proof.
  intros E Hne. unfold worker_step in E.
  destruct (m_threads p !! j) as [w|]; [|done].
  destruct w; repeat
    match type of E with
    | None = Some _ => discriminate E
    | Some _ = Some _ => injection E as <- <-; cbn; by rewrite list_lookup_insert_ne
    | context [match ?c with _ => _ end] => destruct c
    end.
Qed.

Lemma terminal_permanent pf a s s' ev i :
  step pf a s = Some (s', ev) ->
  m_threads (pool s) !! i = Some Terminal ->
  m_threads (pool s') !! i = Some Terminal.
Proof.
  intros E Hi. destruct a as [j os| |task priority pick|tasks pick|task priority|tasks|pick]; cbn in E.
  - destruct (worker_step pf os j (pool s)) as [[p' ev']|] eqn:Ew; [|done].
    injection E as <- <-. cbn. destruct (decide (j = i)) as [->|Hne].
    + unfold worker_step in Ew. by rewrite Hi in Ew.
    + by rewrite (worker_step_other _ _ _ _ _ _ _ Ew Hne).
  - unfold destructor_step in E.
    destruct (caller s); try done.
    + by injection E as <- <-.
    + injection E as <- <-. cbn. by rewrite lookup_notify_all, Hi.
    + destruct (forallb is_terminal (m_threads (pool s))); [|done].
      by injection E as <- <-.
  - destruct (caller s); try done. destruct (mutex_free (pool s)); [|done].
    injection E as <- <-. cbn.
    destruct (notify_one_threads pick _ _ _ Hi) as [H | [H _] ]; done.
  - destruct (caller s); try done. destruct (mutex_free (pool s)); [|done].
    injection E as <- <-. cbn.
    destruct (notify_one_threads pick _ _ _ Hi) as [H | [H _] ]; done.
  - destruct (caller s); try done. destruct (mutex_free (pool s)); [|done].
    by injection E as <- <-.
  - destruct (caller s); try done. destruct (mutex_free (pool s)); [|done].
    by injection E as <- <-.
  - destruct (caller s); try done.
    injection E as <- <-. cbn.
    destruct (notify_one_threads pick _ _ _ Hi) as [H | [H _] ]; done.
Qed.

(** C6: a waiting worker leaves the Waiting state exactly at the
    evaluation of the wait predicate and exactly when the predicate,
    (shutdown requested) or (queue non-empty), is true; it then holds
    the lock in the Dequeuing state, and until then it consumes
    nothing.  A worker that finds the queue empty after the wait goes
    back to Waiting without consuming anything when shutdown is not
    requested, and becomes Terminal when it is; a Terminal worker takes
    no further step and no step of any other thread moves it. *)
Theorem wait_predicate_transitions pf os i p w :
  m_threads p !! i = Some w ->
  (phase_of w = Waiting ->
     forall p' ev w',
       worker_step pf os i p = Some (p', ev) -> m_threads p' !! i = Some w' ->
       (phase_of w' <> Waiting <->
          w = AtPredicate /\ m_quit p || negb (pq_empty (m_tasks p)) = true) /\
       (phase_of w' <> Waiting -> w' = Dequeuing) /\
       m_tasks p' = m_tasks p /\ ev = []) /\
  (w = AtPredicate ->
     exists p',
       worker_step pf os i p = Some (p', []) /\
       m_threads p' !! i =
         Some (if m_quit p || negb (pq_empty (m_tasks p)) then Dequeuing else AtWait)) /\
  (w = Dequeuing -> pq_empty (m_tasks p) = true -> m_quit p = false ->
     exists p',
       worker_step pf os i p = Some (p', []) /\
       m_threads p' !! i = Some AtLock /\ phase_of (AtLock (Task := Task)) = Waiting /\
       m_tasks p' = m_tasks p) /\
  (w = Dequeuing -> pq_empty (m_tasks p) = true -> m_quit p = true ->
     exists p',
       worker_step pf os i p = Some (p', []) /\
       m_threads p' !! i = Some Terminal /\
       m_tasks p' = m_tasks p) /\
  (w = Terminal ->
     worker_step pf os i p = None /\
     forall c a s' ev,
       step pf a {| pool := p; caller := c |} = Some (s', ev) ->
       m_threads (pool s') !! i = Some Terminal).
Proof.
  intros Hw.
  assert (Hl : forall v, <[i := v]> (m_threads p) !! i = Some v)
    by (intros v; by apply lookup_set_worker with w).
  split; [|split; [|split; [|split] ] ].
  - intros Hph p' ev w' E Hw'. unfold worker_step in E. rewrite Hw in E.
    destruct w; try discriminate Hph;
      repeat match type of E with
      | None = Some _ => discriminate E
      | Some _ = Some _ =>
          injection E as <- <-; cbn in Hw'; rewrite Hl in Hw'; injection Hw' as <-
      | context [match ?c with _ => _ end] => destruct c eqn:?
      end; cbn; intuition congruence.
  - intros ->. unfold worker_step. rewrite Hw.
    destruct (m_quit p || negb (pq_empty (m_tasks p))); eexists; (split; [done|]); apply Hl.
  - intros -> He Hq. unfold worker_step. rewrite Hw, He, Hq.
    eexists. split; [done|]. split; [apply Hl | done].
  - intros -> He Hq. unfold worker_step. rewrite Hw, He, Hq.
    eexists. split; [done|]. split; [apply Hl | done].
  - intros ->. split; [unfold worker_step; by rewrite Hw|].
    intros c a s' ev E. by apply (terminal_permanent _ _ _ _ _ _ E).
Qed.

(** C7: in every reachable state, a worker that is adapting does not
    own the queue mutex, and its adaptation step leaves the mutex and
    the queue alone.  The step makes at most one set call, with the
    numeric value of the task's priority, and only if the priority read
    from the operating system differs from that value; when the two are
    equal no set call is made.  The adaptation is carried out: the step
    begins with the one read of the thread's current priority, and when
    the read succeeds and the value differs from the task's the set
    call follows at once; otherwise the read is all the step does. *)
Theorem adaptation_outside_lock pf s i os task :
  reachable pf s ->
  m_threads (pool s) !! i = Some (Adapting task) ->
  let priority := priority_value pf (snd task) in
  let tr := adapt_priority pf os priority in
  m_mutex (pool s) <> Some i /\
  (exists p',
     worker_step pf os i (pool s) = Some (p', tr) /\
     m_threads p' !! i = Some (Executing task) /\
     m_mutex p' = m_mutex (pool s) /\
     m_tasks p' = m_tasks (pool s)) /\
  (set_calls tr = [] \/ set_calls tr = [priority]) /\
  (set_calls tr <> [] -> sched_priority os <> priority) /\
  (sched_priority os = priority -> set_calls tr = []) /\
  (exists rest, tr = EvGetPriority :: rest /\ Forall (fun e => e <> EvGetPriority) rest) /\
  (read_succeeded pf os = true -> sched_priority os <> priority ->
     set_calls tr = [priority] /\
     exists report, tr = EvGetPriority :: EvSetPriority priority :: report /\
       (report = [] \/ report = [EvLog errorMessage])) /\
  (read_succeeded pf os = false \/ sched_priority os = priority -> tr = [EvGetPriority]).
Proof.
  intros Hreach Hw priority tr.
  destruct (reachable_inv pf s Hreach) as [_ Hm].
  split; [|split].
  - intros Hown. by apply (Hm i (Adapting task) Hw) in Hown.
  - eexists. unfold worker_step. rewrite Hw. split; [done|].
    split; [cbn; by apply lookup_set_worker with (Adapting task) | done].
  - subst tr. unfold adapt_priority, read_succeeded.
    destruct (Z.eqb_spec (sched_priority os) priority) as [He|Hne];
      destruct pf; cbn [negb];
      repeat match goal with
      | |- context [if ?c then _ else _] => destruct c eqn:?
      end; cbn [set_calls omap];
      (split; [auto|]); (split; [try done; congruence|]); (split; [try done; congruence|]);
      (split; [eexists; split;
                 [reflexivity|repeat (apply Forall_cons_2; [by intros ?|]); apply Forall_nil_2]|]);
      (split;
         [intros;
          first [congruence | split; [done|]; eexists; split; [reflexivity|]; auto]
         |intros [?|?]; first [congruence | done]]).
Qed.

Lemma invoked_adapt_priority pf os priority :
  invoked (adapt_priority (Task := Task) pf os priority) = [].
Proof.
  unfold adapt_priority.
  destruct pf; cbn;
    repeat match goal with
    | |- context [if ?c then _ else _] => destruct c
    end; done.
Qed.

(** C5, amended: whatever the operating system answers, the dispatch of
    a dequeued record goes on to invoke the callable exactly once, after
    the adaptation, and the worker returns to the top of its loop.  A
    set call that fails is reported with one diagnostic and nothing else
    is ever reported; in particular a failed read on Linux skips the
    adaptation with no diagnostic and no set call. *)
Theorem adaptation_failure_nonfatal pf os i p task :
  m_threads p !! i = Some (Adapting task) ->
  let pre := adapt_priority pf (os 0) (priority_value pf (snd task)) in
  (exists p',
     worker_run pf os 2 i p = (p', pre ++ [EvInvoke (fst task)]) /\
     m_threads p' !! i = Some AtLock) /\
  invoked (pre ++ [EvInvoke (fst task)]) = [fst task] /\
  (set_calls pre <> [] -> set_failed pf (os 0) = true -> logged pre = [errorMessage]) /\
  (logged pre <> [] -> set_calls pre <> [] /\ set_failed pf (os 0) = true) /\
  (pf = Linux -> getschedparam_ret (os 0) <> 0%Z -> pre = [EvGetPriority]).
Proof.
  intros Hw pre.
  assert (Hl : forall v (q : @PriorityThreadPool Task), m_threads q !! i = Some (Adapting task) ->
             <[i := v]> (m_threads q) !! i = Some v).
  { intros v q Hq. by apply lookup_set_worker with (Adapting task). }
  split; [|split].
  - eexists. cbn [worker_run]. unfold worker_step at 1. rewrite Hw.
    unfold worker_step at 1. cbn [m_threads set_worker set_threads].
    rewrite (Hl _ p Hw). split; [done|].
    cbn. rewrite list_insert_insert_eq. by apply Hl.
  - unfold invoked. rewrite omap_app. fold (invoked pre). subst pre.
    by rewrite invoked_adapt_priority.
  - subst pre. unfold adapt_priority, set_failed.
    destruct pf; cbn;
      repeat match goal with
      | |- context [if ?c then _ else _] => destruct c eqn:?
      end; cbn; repeat split; auto; try congruence; try lia.
Qed.

(** *** Draining after shutdown *)

Lemma worker_run_stuck pf os fuel i p :
  worker_step pf (os 0) i p = None -> worker_run pf os fuel i p = (p, []).
Proof. intros H. destruct fuel; cbn; [done|]. by rewrite H. Qed.

(** The last three steps of a worker: lock, predicate, [break]. *)
Lemma worker_run_exit pf os fuel i p :
  m_threads p !! i = Some AtLock -> m_mutex p = None -> m_quit p = true ->
  m_tasks p = [] -> 3 <= fuel ->
  exists p', worker_run pf os fuel i p = (p', []) /\
    m_threads p' !! i = Some Terminal /\ m_tasks p' = [].
Proof.
  intros Hw Hm Hq Ht Hf.
  assert (Hl : i < length (m_threads p)) by by apply lookup_lt_Some in Hw.
  destruct fuel as [|[|[|fuel] ] ]; try lia.
  cbn [worker_run]. unfold worker_step at 1. rewrite Hw, Hm.
  unfold worker_step at 1. cbn [m_threads m_quit m_tasks set_worker set_threads set_mutex].
  rewrite list_lookup_insert_eq, Hq by done. cbn [orb].
  unfold worker_step at 1. cbn [m_threads m_quit m_tasks set_worker set_threads set_mutex].
  rewrite list_lookup_insert_eq, Hq, Ht by (rewrite ?length_insert; done). cbn [pq_empty].
  rewrite worker_run_stuck.
  - eexists. split; [done|]. cbn. split; [|done].
    apply list_lookup_insert_eq. by rewrite !length_insert.
  - unfold worker_step. cbn. rewrite list_lookup_insert_eq; [done|].
    by rewrite !length_insert.
Qed.

(** One full iteration of a worker that finds the queue non-empty. *)
Lemma worker_run_iteration pf os fuel i p r :
  m_threads p !! i = Some AtLock -> m_mutex p = None -> pq_top (m_tasks p) = Some r ->
  exists p5,
    m_threads p5 !! i = Some AtLock /\ m_mutex p5 = None /\ m_quit p5 = m_quit p /\
    m_tasks p5 = pq_pop (TaskPriorityComparator pf) (m_tasks p) /\
    worker_run pf os (5 + fuel) i p =
      (let '(p', tr) := worker_run pf (fun n => os (5 + n)) fuel i p5 in
       (p', adapt_priority pf (os 3) (priority_value pf (snd r)) ++ EvInvoke (fst r) :: tr)).
Proof.
  intros Hw Hm Ht.
  assert (Hl : i < length (m_threads p)) by by apply lookup_lt_Some in Hw.
  assert (He : pq_empty (m_tasks p) = false) by (destruct (m_tasks p); done).
  exists (set_worker i AtLock
            (set_worker i (Executing r)
               (set_mutex None
                  (set_worker i (Adapting r)
                     (set_tasks (pq_pop (TaskPriorityComparator pf) (m_tasks p))
                        (set_worker i Dequeuing
                           (set_mutex (Some i) (set_worker i AtPredicate p)))))))).
  split; [|split; [|split; [|split] ] ]; try done.
  - cbn. apply list_lookup_insert_eq. by rewrite !length_insert.
  - cbn [worker_run Nat.add]. unfold worker_step at 1. rewrite Hw, Hm.
    unfold worker_step at 1. cbn [m_threads m_quit m_tasks set_worker set_threads set_mutex].
    rewrite list_lookup_insert_eq, He by done. rewrite orb_true_r.
    unfold worker_step at 1. cbn [m_threads m_quit m_tasks set_worker set_threads set_mutex].
    rewrite list_lookup_insert_eq, He, Ht by (rewrite ?length_insert; done).
    unfold worker_step at 1.
    cbn [m_threads m_quit m_tasks set_worker set_threads set_mutex set_tasks].
    rewrite list_lookup_insert_eq by (rewrite ?length_insert; done).
    unfold worker_step at 1.
    cbn [m_threads m_quit m_tasks set_worker set_threads set_mutex set_tasks].
    rewrite list_lookup_insert_eq by (rewrite ?length_insert; done).
    cbn [app].
    match goal with
    | |- context [worker_run pf ?o fuel i ?q] =>
        destruct (worker_run pf o fuel i q) as [p' tr]
    end.
    done.
Qed.

Lemma worker_run_drain pf i : forall n os fuel p,
  length (m_tasks p) = n ->
  is_heap (TaskPriorityComparator pf) (m_tasks p) ->
  m_threads p !! i = Some AtLock -> m_mutex p = None -> m_quit p = true ->
  5 * n + 3 <= fuel ->
  exists p' tr, worker_run pf os fuel i p = (p', tr) /\
    m_threads p' !! i = Some Terminal /\ m_tasks p' = [] /\
    invoked tr ≡ₚ map fst (m_tasks p).
Proof.
  induction n as [|n IH]; intros os fuel p Hn Hh Hw Hm Hq Hf.
  - assert (Ht : m_tasks p = []) by (destruct (m_tasks p); done).
    destruct (worker_run_exit pf os fuel i p Hw Hm Hq Ht) as (p' & E & H1 & H2); [lia|].
    exists p', []. by rewrite Ht.
  - assert (exists r q, m_tasks p = r :: q) as (r & q & Ht)
      by (destruct (m_tasks p) as [|r q]; [done | by exists r, q]).
    assert (Htop : pq_top (m_tasks p) = Some r) by by rewrite Ht.
    replace fuel with (5 + (fuel - 5)) by lia.
    destruct (worker_run_iteration pf os (fuel - 5) i p r Hw Hm Htop)
      as (p5 & H1 & H2 & H3 & H4 & E).
    destruct (pq_pop_spec (TaskPriorityComparator pf)
                (TaskPriorityComparator_asym pf) (TaskPriorityComparator_negtrans pf)
                _ r Hh Htop) as [Hh5 Hperm].
    rewrite <- H4 in Hh5, Hperm.
    assert (Hn5 : length (m_tasks p5) = n).
    { apply Permutation_length in Hperm. cbn [length] in Hperm. lia. }
    destruct (IH (fun k => os (5 + k)) (fuel - 5) p5 Hn5 Hh5 H1 H2) as (p' & tr & E' & G1 & G2 & G3);
      [congruence | lia |].
    rewrite E, E'. eexists _, _. split; [done|]. split; [done|]. split; [done|].
    unfold invoked. rewrite omap_app. fold (invoked (adapt_priority (Task := Task) pf (os 3) (priority_value pf r.2))).
    rewrite invoked_adapt_priority. cbn. fold (invoked tr).
    rewrite G3. symmetry. apply (Permutation_map fst Hperm).
Qed.

(** The only step into [Terminal] is the [break], taken at an empty
    queue with the flag set. *)
Lemma terminal_only_when_drained pf os j p p' ev w :
  m_threads p !! j = Some w -> w <> Terminal ->
  worker_step pf os j p = Some (p', ev) ->
  m_threads p' !! j = Some Terminal ->
  w = Dequeuing /\ pq_empty (m_tasks p) = true /\ m_quit p = true.
Proof.
  intros Hw Hne E Hw'.
  assert (Hl : forall v, <[j := v]> (m_threads p) !! j = Some v)
    by (intros v; by apply lookup_set_worker with w).
  unfold worker_step in E. rewrite Hw in E.
  destruct w; try done;
    repeat match type of E with
    | None = Some _ => discriminate E
    | Some _ = Some _ =>
        injection E as <- <-; cbn in Hw'; rewrite Hl in Hw'; try discriminate Hw'
    | context [match ?c with _ => _ end] => destruct c eqn:?
    end.
  done.
Qed.

(** C1, amended: the shutdown flag does not make a worker drop what is
    queued.  In every reachable state in which shutdown has been
    requested, a worker that goes for the lock and runs on its own pops
    and invokes every record of the queue and only then becomes
    Terminal: the callables it invokes are those of the queued records,
    each once, and the queue is empty at the end.  No worker ever
    becomes Terminal otherwise than by finding the queue empty with the
    flag set. *)
Theorem shutdown_drains_queue pf s i os fuel :
  reachable pf s ->
  m_quit (pool s) = true -> m_mutex (pool s) = None ->
  m_threads (pool s) !! i = Some AtLock ->
  5 * length (m_tasks (pool s)) + 3 <= fuel ->
  (exists p' tr,
     worker_run pf os fuel i (pool s) = (p', tr) /\
     m_threads p' !! i = Some Terminal /\
     m_tasks p' = [] /\
     invoked tr ≡ₚ map fst (m_tasks (pool s))) /\
  (forall j os' p0 p1 ev w,
     m_threads p0 !! j = Some w -> w <> Terminal ->
     worker_step pf os' j p0 = Some (p1, ev) ->
     m_threads p1 !! j = Some Terminal ->
     w = Dequeuing /\ pq_empty (m_tasks p0) = true /\ m_quit p0 = true).
Proof.
  intros Hreach Hq Hm Hw Hf.
  destruct (reachable_inv pf s Hreach) as [Hh _].
  split.
  - by apply (worker_run_drain pf i (length (m_tasks (pool s)))).
  - intros j os' p0 p1 ev w. apply terminal_only_when_drained.
Qed.

(** ** Further properties of the comparator and of the lock *)

(** X1: on every platform, whatever values the macros have,
    [TaskPriorityComparator] is a strict weak order, as
    [std::priority_queue] requires of its comparator: it is
    irreflexive, asymmetric and transitive, and being unordered is
    transitive too; two records are unordered exactly when their
    priorities have the same value, whatever their callables. *)
Theorem TaskPriorityComparator_strict_weak_order pf (a b c : @TaskPriority Task) :
  let lt := TaskPriorityComparator pf in
  let unordered x y := lt x y = false /\ lt y x = false in
  lt a a = false /\
  (lt a b = true -> lt b a = false) /\
  (lt a b = true -> lt b c = true -> lt a c = true) /\
  (unordered a b -> unordered b c -> unordered a c) /\
  (unordered a b <-> priority_value pf (snd a) = priority_value pf (snd b)).
Proof.
  unfold TaskPriorityComparator. destruct pf; cbn; repeat split; lia.
Qed.

(** X2: in every reachable state the mutex is owned by worker [i]
    exactly when worker [i] is between the construction of its
    [unique_lock] and the release (at the wait predicate, about to
    block, or dequeuing).  So two workers are never inside the critical
    section together, and a worker that adapts its priority or executes
    a callable does not own the mutex. *)
Theorem mutex_exclusive pf s i w :
  reachable pf s ->
  m_threads (pool s) !! i = Some w ->
  (m_mutex (pool s) = Some i <-> (w = AtPredicate \/ w = AtWait \/ w = Dequeuing)) /\
  (forall j w', m_threads (pool s) !! j = Some w' ->
     holds_mutex w = true -> holds_mutex w' = true -> i = j) /\
  (phase_of w = InAdapting \/ phase_of w = InExecuting -> m_mutex (pool s) <> Some i).
Proof.
  intros Hreach Hw. destruct (reachable_inv pf s Hreach) as [_ Hm].
  pose proof (Hm i w Hw) as Hi. split; [|split].
  - rewrite <- Hi. destruct w; cbn; intuition congruence.
  - intros j w' Hw' Hh Hh'. apply Hi in Hh. apply (Hm j w' Hw') in Hh'. congruence.
  - intros Hph Hown. apply Hi in Hown. destruct w; cbn in *; intuition congruence.
Qed.

(** ** The invariants of whole runs *)

Lemma pq_empty_true q : pq_empty q = true <-> q = [].
Proof. by destruct q. Qed.

Lemma pq_empty_false q : pq_empty q = false <-> q <> [].
Proof. by destruct q. Qed.

(** What one step of a worker can do. *)
Lemma worker_step_facts pf os i p p' ev :
  worker_step pf os i p = Some (p', ev) ->
  exists w w',
    m_threads p !! i = Some w /\ w <> Terminal /\ w <> Blocked /\
    m_threads p' = <[i := w']> (m_threads p) /\
    m_quit p' = m_quit p /\
    (m_mutex p' = m_mutex p \/ m_mutex p' = None \/ m_mutex p' = Some i) /\
    ((m_tasks p' = m_tasks p /\ flight w' ++ invoked ev = flight w) \/
     (w = Dequeuing /\ ev = [] /\ exists r, pq_top (m_tasks p) = Some r /\ w' = Adapting r /\
        m_tasks p' = pq_pop (TaskPriorityComparator pf) (m_tasks p))) /\
    (w' = Blocked -> w = AtWait) /\
    (w' = Terminal -> m_quit p = true /\ m_tasks p = []) /\
    (w' = AtWait -> m_tasks p = []) /\
    (w' = Dequeuing -> m_quit p || negb (pq_empty (m_tasks p)) = true).
Proof.
  intros E. unfold worker_step in E.
  destruct (m_threads p !! i) as [w|] eqn:Hw; [|done].
  exists w.
  destruct w;
    repeat match type of E with
    | None = Some _ => discriminate E
    | Some _ = Some _ => injection E as <- <-
    | context [match ?c with _ => _ end] => destruct c eqn:?
    end;
    eexists; (split; [reflexivity|]); (split; [done|]); (split; [done|]);
    (split; [reflexivity|]); (split; [cbn; congruence|]); cbn;
    repeat match goal with
    | H : pq_empty _ = true |- _ => apply pq_empty_true in H
    | H : _ || _ = false |- _ => apply orb_false_iff in H as [? ?]
    | H : negb _ = false |- _ => apply negb_false_iff in H
    end;
    repeat split; try done; try (by auto); try (intros; congruence);
    try (right; repeat split; try done; by eexists);
    try (left; split; [done|]; by rewrite invoked_adapt_priority).
Qed.

Lemma notify_one_threads_inv pick ts j w' :
  notify_one pick ts !! j = Some w' ->
  ts !! j = Some w' \/ (w' = Woken /\ ts !! j = Some Blocked).
Proof.
  intros Hw. destruct (notify_one_spec pick ts) as [E | (i & Hi & E)];
    rewrite E in Hw; [by left|].
  destruct (lookup_insert_hole _ _ _ _ _ Hw) as [[-> ->]|[Hne Hx] ]; [by right | by left].
Qed.

Lemma blocked_from_complete ts : forall k j,
  ts !! j = Some Blocked -> k + j ∈ blocked_from k ts.
Proof.
  induction ts as [|w ts IH]; intros k [|j] Hj; try done; cbn in *.
  - injection Hj as ->. cbn. rewrite Nat.add_0_r. apply list_elem_of_here.
  - apply elem_of_app. right. replace (k + S j) with (S k + j) by lia. by apply IH.
Qed.

(** [notify_one] does wake a thread when one is blocked. *)
Lemma notify_one_wakes pick ts j :
  ts !! j = Some Blocked ->
  exists i, ts !! i = Some Blocked /\ notify_one pick ts = <[i := Woken]> ts.
Proof.
  intros Hj. unfold notify_one.
  pose proof (blocked_from_complete ts 0 j Hj) as Hin.
  assert (Hlen : 0 < length (blocked_from 0 ts)).
  { destruct (blocked_from 0 ts); [by apply not_elem_of_nil in Hin | cbn; lia]. }
  destruct (lookup_lt_is_Some_2 (blocked_from 0 ts)
              (pick mod length (blocked_from 0 ts))) as [i Hi].
  { apply Nat.mod_upper_bound. lia. }
  rewrite Hi. apply list_elem_of_lookup_2 in Hi.
  apply blocked_from_spec in Hi as (k & -> & Hk). by exists k.
Qed.

Lemma length_notify_all ts : length (notify_all ts) = length ts.
Proof. apply length_map. Qed.

Lemma lookup_notify_all_inv ts j w' :
  notify_all ts !! j = Some w' ->
  ts !! j = Some w' \/ (w' = Woken /\ ts !! j = Some Blocked).
Proof.
  rewrite lookup_notify_all. destruct (ts !! j) as [w|]; [|done]. cbn.
  intros [= <-]. destruct w; auto.
Qed.

Lemma forallb_lookup_true {B : Type} (f : B -> bool) (l : list B) :
  forallb f l = true -> forall j x, l !! j = Some x -> f x = true.
Proof.
  induction l as [|y l IH]; intros H [|j] x Hx; try done; cbn in *;
    apply andb_true_iff in H as [H1 H2].
  - by injection Hx as <-.
  - by apply (IH H2 j).
Qed.

Lemma forallb_lookup_false {B : Type} (f : B -> bool) (l : list B) :
  forallb f l = false -> exists j x, l !! j = Some x /\ f x = false.
Proof.
  induction l as [|y l IH]; intros H; [done|]. cbn in H.
  apply andb_false_iff in H as [H|H].
  - by exists 0, y.
  - destruct (IH H) as (j & x & Hx & Hf). by exists (S j), x.
Qed.

Lemma worker_step_system_inv pf os i s p' ev :
  pool_inv pf (pool s) -> system_inv s ->
  worker_step pf os i (pool s) = Some (p', ev) ->
  system_inv {| pool := p'; caller := caller s |}.
Proof.
  intros [_ Hmx] [Io Iq It Iw Id Ij Il] E.
  destruct (worker_step_facts _ _ _ _ _ _ E)
    as (w & w' & Hw & HnT & HnB & Hts & Hq & Hm & Htasks & HB & HT & HW & HD).
  assert (Hi : i < length (m_threads (pool s))) by by apply lookup_lt_Some in Hw.
  assert (Hempty : m_tasks (pool s) = [] -> m_tasks p' = []).
  { intros H0. destruct Htasks as [[-> _]|(_ & _ & r & Hr & _)]; [done|].
    by rewrite H0 in Hr. }
  split; cbn.
  - intros j Hj. rewrite Hts, length_insert.
    destruct Hm as [Hm | [Hm | Hm] ]; rewrite Hm in Hj; [by apply Io | done | congruence].
  - by rewrite Hq.
  - intros j Hj. rewrite Hts in Hj. rewrite Hq.
    destruct (lookup_insert_hole _ _ _ _ _ Hj) as [[-> Hw']|[Hne Hj'] ].
    + destruct (HT (eq_sym Hw')) as [H1 H2]. auto.
    + destruct (It j Hj') as [H1 H2]. auto.
  - intros j Hj. rewrite Hts in Hj.
    destruct (lookup_insert_hole _ _ _ _ _ Hj) as [[-> Hw']|[Hne Hj'] ].
    + apply Hempty, HW. done.
    + apply Hempty, (Iw j Hj').
  - intros j Hj. rewrite Hts in Hj. rewrite Hq.
    destruct (lookup_insert_hole _ _ _ _ _ Hj) as [[-> Hw']|[Hne Hj'] ].
    + destruct Htasks as [[-> _]|(_ & _ & r & _ & Hr & _)]; [|congruence].
      apply HD. done.
    + destruct Htasks as [[-> _]|(Hwd & _)]; [by apply (Id j)|].
      subst w. exfalso. apply Hne.
      assert (H1 : m_mutex (pool s) = Some i) by by apply (Hmx i Dequeuing Hw).
      assert (H2 : m_mutex (pool s) = Some j) by by apply (Hmx j Dequeuing Hj').
      congruence.
  - intros Hc. exfalso. apply HnT.
    by apply (Forall_lookup_1 _ _ _ _ (Ij Hc) Hw).
  - by rewrite Hts, length_insert.
Qed.

Lemma destructor_step_system_inv s s' :
  system_inv s -> destructor_step s = Some s' -> system_inv s'.
Proof.
  intros [Io Iq It Iw Id Ij Il] E. unfold destructor_step in E.
  assert (Hq : caller s = Alive -> m_quit (pool s) = false).
  { intros Hc. destruct (m_quit (pool s)) eqn:Eq; [|done].
    exfalso. exact (proj1 Iq eq_refl Hc). }
  destruct (caller s) eqn:Ec.
  - injection E as <-. specialize (Hq eq_refl).
    split; cbn; try done.
    + intros j Hj. destruct (It j Hj). congruence.
  - injection E as <-. split; cbn.
    + intros j Hj. rewrite length_notify_all. by apply Io.
    + split; [done|]. intros _. by apply Iq.
    + intros j Hj. apply lookup_notify_all_inv in Hj as [Hj | [? _] ]; [by apply (It j) | done].
    + intros j Hj. apply lookup_notify_all_inv in Hj as [Hj | [? _] ]; [by apply (Iw j) | done].
    + intros j Hj. apply lookup_notify_all_inv in Hj as [Hj | [? _] ]; [by apply (Id j) | done].
    + done.
    + by rewrite length_notify_all.
  - destruct (forallb is_terminal (m_threads (pool s))) eqn:Ef; [|done].
    injection E as <-. split; cbn; try done.
    + split; [done|]. intros _. by apply Iq.
    + intros _. apply Forall_forall. intros w Hin.
      rewrite forallb_forall in Ef. apply list_elem_of_In in Hin.
      specialize (Ef w Hin). by destruct w.
  - done.
Qed.

Lemma push_system_inv s q :
  mutex_inv (m_threads (pool s)) (m_mutex (pool s)) -> system_inv s ->
  caller s = Alive -> mutex_free (pool s) = true ->
  system_inv {| pool := set_tasks q (pool s); caller := Alive |}.
Proof.
  intros Hmx [Io Iq It Iw Id Ij Il] Hc Hf.
  assert (Hm : m_mutex (pool s) = None).
  { unfold mutex_free in Hf. by destruct (m_mutex (pool s)). }
  assert (Hq : m_quit (pool s) = false).
  { destruct (m_quit (pool s)) eqn:Eq; [|done].
    exfalso. exact (proj1 Iq eq_refl Hc). }
  assert (Hfree : forall j w, m_threads (pool s) !! j = Some w -> holds_mutex w = false).
  { intros j w Hj. destruct (holds_mutex w) eqn:Eh; [|done].
    apply (Hmx j w Hj) in Eh. congruence. }
  split; cbn.
  - intros j Hj. congruence.
  - rewrite Hq. split; [done|]. intros H. by destruct H.
  - intros j Hj. destruct (It j Hj). congruence.
  - intros j Hj. by apply Hfree in Hj.
  - intros j Hj. by apply Hfree in Hj.
  - done.
  - done.
Qed.

Lemma notify_one_system_inv s pick :
  system_inv s -> caller s = Alive ->
  system_inv {| pool := set_threads (notify_one pick (m_threads (pool s))) (pool s);
                caller := Alive |}.
Proof.
  intros [Io Iq It Iw Id Ij Il] Hc.
  split; cbn.
  - intros j Hj. rewrite length_notify_one. by apply Io.
  - rewrite Hc in Iq. done.
  - intros j Hj. apply notify_one_threads_inv in Hj as [Hj | [? _] ]; [|done].
    by apply (It j).
  - intros j Hj. apply notify_one_threads_inv in Hj as [Hj | [? _] ]; [|done].
    by apply (Iw j).
  - intros j Hj. apply notify_one_threads_inv in Hj as [Hj | [? _] ]; [|done].
    by apply (Id j).
  - done.
  - by rewrite length_notify_one.
Qed.

Lemma submission_system_inv pf s q pick :
  pool_inv pf (pool s) -> system_inv s ->
  caller s = Alive -> mutex_free (pool s) = true ->
  system_inv {| pool := set_threads (notify_one pick (m_threads (pool s)))
                          (set_tasks q (pool s));
                caller := Alive |}.
Proof.
  intros [_ Hmx] Hs Hc Hf.
  apply (notify_one_system_inv {| pool := set_tasks q (pool s); caller := Alive |});
    [by apply push_system_inv | done].
Qed.

Lemma step_system_inv pf a s s' ev :
  pool_inv pf (pool s) -> system_inv s -> step pf a s = Some (s', ev) -> system_inv s'.
Proof.
  intros Hp Hs E. destruct a as [i os| |task priority pick|tasks pick|task priority|tasks|pick]; cbn in E.
  - destruct (worker_step pf os i (pool s)) as [[p' ev']|] eqn:Ew; [|done].
    injection E as <- <-. by apply worker_step_system_inv in Ew.
  - destruct (destructor_step s) as [s1|] eqn:Ed; [|done].
    injection E as <- <-. by apply destructor_step_system_inv in Ed.
  - destruct (caller s) eqn:Ec; try done.
    destruct (mutex_free (pool s)) eqn:Ef; [|done]. injection E as <- <-.
    by apply (submission_system_inv pf).
  - destruct (caller s) eqn:Ec; try done.
    destruct (mutex_free (pool s)) eqn:Ef; [|done]. injection E as <- <-.
    by apply (submission_system_inv pf).
  - destruct (caller s) eqn:Ec; try done.
    destruct (mutex_free (pool s)) eqn:Ef; [|done]. injection E as <- <-.
    apply push_system_inv; [by destruct Hp | done | done | done].
  - destruct (caller s) eqn:Ec; try done.
    destruct (mutex_free (pool s)) eqn:Ef; [|done]. injection E as <- <-.
    apply push_system_inv; [by destruct Hp | done | done | done].
  - destruct (caller s) eqn:Ec; try done. injection E as <- <-.
    by apply notify_one_system_inv.
Qed.

Lemma reachable_system_inv pf s : reachable pf s -> system_inv s.
Proof.
  induction 1 as [n p Hc | s a s' ev Hr IH Hs].
  - apply construct_Constructed in Hc as [En ->].
    split; cbn; try done.
    + intros j Hj. apply lookup_replicate_1 in Hj as [? _]. done.
    + intros j Hj. apply lookup_replicate_1 in Hj as [? _]. done.
    + rewrite length_replicate. lia.
  - apply (step_system_inv pf a s s' ev); [by apply reachable_inv | done | done].
Qed.

(** X3: the [continue] of the worker loop is never taken.  In every
    reachable state a worker that has returned from the wait finds the
    flag set or the queue non-empty; its next step is always possible
    and either pops a record (queue non-empty) or is the [break] (queue
    empty and flag set), never the way back to the wait. *)
Theorem continue_branch_unreachable pf s i os :
  reachable pf s ->
  m_threads (pool s) !! i = Some Dequeuing ->
  m_quit (pool s) || negb (pq_empty (m_tasks (pool s))) = true /\
  exists p' w',
    worker_step pf os i (pool s) = Some (p', []) /\
    m_threads p' !! i = Some w' /\
    ((exists r, w' = Adapting r /\ pq_top (m_tasks (pool s)) = Some r) \/
     (w' = Terminal /\ m_tasks (pool s) = [] /\ m_quit (pool s) = true)).
Proof.
  intros Hreach Hw.
  pose proof (inv_dequeuing _ (reachable_system_inv pf s Hreach) i Hw) as Hc.
  split; [done|].
  assert (Hl : forall v, <[i := v]> (m_threads (pool s)) !! i = Some v)
    by (intros v; by apply lookup_set_worker with Dequeuing).
  unfold worker_step. rewrite Hw.
  destruct (pq_empty (m_tasks (pool s))) eqn:Ee.
  - rewrite orb_false_r in Hc. rewrite Hc. apply pq_empty_true in Ee.
    eexists _, Terminal. split; [done|]. split; [apply Hl|]. by right.
  - destruct (pq_empty_false_top _ Ee) as [r Hr]. rewrite Hr.
    eexists _, (Adapting r). split; [done|]. split; [apply Hl|]. left. by exists r.
Qed.



Lemma holder_can_step pf os i p w :
  m_threads p !! i = Some w -> holds_mutex w = true ->
  exists p' ev, worker_step pf os i p = Some (p', ev).
Proof.
  intros Hw Hh. unfold worker_step. rewrite Hw.
  destruct w; try done.
  - destruct (m_quit p || negb (pq_empty (m_tasks p))); by eexists _, _.
  - by eexists _, _.
  - destruct (pq_empty (m_tasks p)) eqn:Ee.
    + destruct (m_quit p); by eexists _, _.
    + destruct (pq_empty_false_top _ Ee) as [r ->]. by eexists _, _.
Qed.

(** A whole call of [add] is its push followed at once by its
    [notify_one]. *)
Lemma add_push_notify pf task priority pick s :
  run pf [ActAdd task priority pick] s =
  run pf [ActPush task priority; ActNotifyOne pick] s.
Proof.
  cbn. destruct (caller s); try done. by destruct (mutex_free (pool s)).
Qed.

Lemma add_span_push_notify pf tasks pick s :
  run pf [ActAddSpan tasks pick] s = run pf [ActPushSpan tasks; ActNotifyOne pick] s.
Proof.
  cbn. destruct (caller s); try done. by destruct (mutex_free (pool s)).
Qed.

(** Some worker can move as soon as one is neither blocked nor ended:
    that worker, or the one that owns the mutex. *)
Lemma awake_worker_progress pf s j w :
  pool_inv pf (pool s) -> system_inv s ->
  m_threads (pool s) !! j = Some w -> w <> Blocked -> w <> Terminal ->
  exists i, forall os, exists p' ev, worker_step pf os i (pool s) = Some (p', ev).
Proof.
  intros [_ Hmx] [Io _ _ _ _ _ _] Hw HnB HnT.
  destruct (holds_mutex w) eqn:Eh.
  { exists j. intros os. by apply holder_can_step with w. }
  destruct (m_mutex (pool s)) as [k|] eqn:Em.
  - destruct (lookup_lt_is_Some_2 (m_threads (pool s)) k (Io k eq_refl)) as [wk Hk].
    exists k. intros os. apply holder_can_step with wk; [done|].
    by apply (Hmx k wk Hk).
  - exists j. intros os. unfold worker_step. rewrite Hw, Em.
    destruct w; try done; by eexists _, _.
Qed.

(** X5: a submission is not left to sleeping workers.  In every
    reachable state a worker blocks on the condition variable only with
    the queue empty, and the step leaves it empty.  While the pool is
    alive, the [notify_one] with which [add] ends, at whatever point
    after the push it runs, leaves the queue as it is and leaves some
    worker neither blocked nor ended, and then some worker can take its
    next step, whatever the operating system answers. *)
Theorem notify_one_leaves_a_worker_awake pf s :
  reachable pf s ->
  (forall i os p' ev,
     worker_step pf os i (pool s) = Some (p', ev) ->
     m_threads p' !! i = Some Blocked ->
     m_threads (pool s) !! i = Some AtWait /\ m_tasks (pool s) = [] /\ m_tasks p' = []) /\
  (caller s = Alive ->
   forall pick, exists s',
     step pf (ActNotifyOne pick) s = Some (s', []) /\
     m_tasks (pool s') = m_tasks (pool s) /\
     (exists j w, m_threads (pool s') !! j = Some w /\ w <> Blocked /\ w <> Terminal) /\
     (exists i, forall os, exists p' ev, worker_step pf os i (pool s') = Some (p', ev))).
Proof.
  intros Hreach. split.
  - intros i os p' ev E Hb.
    destruct (reachable_system_inv pf s Hreach) as [_ _ _ Iw _ _ _].
    destruct (worker_step_facts _ _ _ _ _ _ E)
      as (w & w' & Hw & _ & _ & Hts & _ & _ & Htasks & HB & _).
    assert (Hi : i < length (m_threads (pool s))) by by apply lookup_lt_Some in Hw.
    rewrite Hts, list_lookup_insert_eq in Hb by done. injection Hb as ->.
    specialize (HB eq_refl). subst w.
    pose proof (Iw i Hw) as H0. split; [done|]. split; [done|].
    destruct Htasks as [[-> _]|(Hd & _)]; [done | discriminate Hd].
  - intros Hc pick. unfold step. rewrite Hc. eexists. split; [reflexivity|].
    split; [done|].
    assert (Hr' : reachable pf
              {| pool := set_threads (notify_one pick (m_threads (pool s))) (pool s);
                 caller := Alive |}).
    { apply reach_step with s (ActNotifyOne pick) []; [done|]. unfold step. by rewrite Hc. }
    destruct (reachable_system_inv pf s Hreach) as [_ Iq It _ _ _ Il].
    assert (Hawake : exists j w,
              notify_one pick (m_threads (pool s)) !! j = Some w /\
              w <> Blocked /\ w <> Terminal).
    { destruct (lookup_lt_is_Some_2 (m_threads (pool s)) 0 Il) as [w0 H0].
      destruct (forallb is_blocked (m_threads (pool s))) eqn:Eall.
      - assert (w0 = Blocked) as ->.
        { pose proof (forallb_lookup_true _ _ Eall 0 w0 H0) as Hb. by destruct w0. }
        destruct (notify_one_wakes pick _ _ H0) as (k & Hk & ->).
        exists k, Woken. split; [|done]. apply list_lookup_insert_eq.
        by apply lookup_lt_Some in Hk.
      - apply forallb_lookup_false in Eall as (j & w & Hj & Hw).
        assert (HnB : w <> Blocked) by (intros ->; done).
        destruct (notify_one_threads pick _ _ _ Hj) as [Hj' | [-> _] ]; [|done].
        exists j, w. split; [done|]. split; [done|].
        intros ->. destruct (It j Hj) as [Hq _]. by apply Iq in Hq. }
    split; [exact Hawake|].
    destruct Hawake as (j & w & Hw & HnB & HnT).
    apply (awake_worker_progress pf _ j w);
      [exact (reachable_inv pf _ Hr') | exact (reachable_system_inv pf _ Hr')
      | done | done | done].
Qed.

(** ** No record is lost or run twice *)

Lemma in_flight_insert ts i w w' :
  ts !! i = Some w ->
  exists A B, in_flight ts = A ++ flight w ++ B /\
              in_flight (<[i := w']> ts) = A ++ flight w' ++ B.
Proof.
  intros Hw. exists (in_flight (take i ts)), (in_flight (drop (S i) ts)).
  assert (Hi : i < length ts) by by apply lookup_lt_Some in Hw.
  unfold in_flight. split.
  - rewrite <- (take_drop_middle ts i w Hw) at 1. by rewrite flat_map_app.
  - rewrite insert_take_drop by done. by rewrite flat_map_app.
Qed.

Lemma in_flight_notify_one pick ts : in_flight (notify_one pick ts) = in_flight ts.
Proof.
  destruct (notify_one_spec pick ts) as [-> | (i & Hi & ->)]; [done|].
  destruct (in_flight_insert ts i Blocked Woken Hi) as (A & B & -> & ->). done.
Qed.

Lemma in_flight_notify_all ts : in_flight (notify_all ts) = in_flight ts.
Proof.
  induction ts as [|w ts IH]; [done|]. unfold in_flight, notify_all in *.
  cbn [map flat_map]. rewrite IH. by destruct w.
Qed.

Lemma step_conserves pf a s s' ev :
  pool_inv pf (pool s) -> step pf a s = Some (s', ev) ->
  map fst (m_tasks (pool s')) ++ in_flight (m_threads (pool s')) ++ invoked ev ≡ₚ
  submitted_by a ++ map fst (m_tasks (pool s)) ++ in_flight (m_threads (pool s)).
Proof.
  intros [Hh _] E. destruct a as [i os| |task priority pick|tasks pick|task priority|tasks|pick]; cbn in E.
  - destruct (worker_step pf os i (pool s)) as [[p' ev']|] eqn:Ew; [|done].
    injection E as <- <-. cbn [pool submitted_by app].
    destruct (worker_step_facts _ _ _ _ _ _ Ew)
      as (w & w' & Hw & _ & _ & Hts & _ & _ & Htasks & _).
    destruct (in_flight_insert _ i w w' Hw) as (A & B & -> & HB). rewrite Hts, HB.
    destruct Htasks as [[-> <-]|(-> & -> & r & Hr & -> & ->)].
    + solve_Permutation.
    + destruct (pq_pop_spec (TaskPriorityComparator pf)
                  (TaskPriorityComparator_asym pf) (TaskPriorityComparator_negtrans pf)
                  _ r Hh Hr) as [_ Hperm].
      rewrite (Permutation_map fst Hperm). cbn. solve_Permutation.
  - unfold destructor_step in E. destruct (caller s); try done.
    + injection E as <- <-. cbn [pool m_tasks m_threads set_quit submitted_by app].
      change (invoked []) with (@nil Task). by rewrite app_nil_r.
    + injection E as <- <-. cbn [pool m_tasks m_threads set_threads submitted_by app].
      change (invoked []) with (@nil Task). by rewrite in_flight_notify_all, app_nil_r.
    + destruct (forallb is_terminal (m_threads (pool s))); [|done].
      injection E as <- <-. cbn [pool submitted_by app].
      change (invoked []) with (@nil Task). by rewrite app_nil_r.
  - destruct (caller s); try done. destruct (mutex_free (pool s)); [|done].
    injection E as <- <-.
    cbn [pool m_tasks m_threads set_threads set_tasks add submitted_by app].
    change (invoked []) with (@nil Task). rewrite in_flight_notify_one, app_nil_r.
    rewrite (Permutation_map fst (pq_push_perm _ (task, priority) (m_tasks (pool s)))).
    done.
  - destruct (caller s); try done. destruct (mutex_free (pool s)); [|done].
    injection E as <- <-.
    cbn [pool m_tasks m_threads set_threads set_tasks add_span submitted_by app].
    change (invoked []) with (@nil Task). rewrite in_flight_notify_one, app_nil_r.
    rewrite (Permutation_map fst (fold_push_perm pf tasks (m_tasks (pool s)))).
    by rewrite map_app, app_assoc.
  - destruct (caller s); try done. destruct (mutex_free (pool s)); [|done].
    injection E as <- <-.
    cbn [pool m_tasks m_threads set_tasks submitted_by app].
    change (invoked []) with (@nil Task). rewrite app_nil_r.
    rewrite (Permutation_map fst (pq_push_perm _ (task, priority) (m_tasks (pool s)))).
    done.
  - destruct (caller s); try done. destruct (mutex_free (pool s)); [|done].
    injection E as <- <-.
    cbn [pool m_tasks m_threads set_tasks submitted_by app].
    change (invoked []) with (@nil Task). rewrite app_nil_r.
    rewrite (Permutation_map fst (fold_push_perm pf tasks (m_tasks (pool s)))).
    by rewrite map_app, app_assoc.
  - destruct (caller s); try done. injection E as <- <-.
    cbn [pool m_tasks m_threads set_threads submitted_by app].
    change (invoked []) with (@nil Task). by rewrite in_flight_notify_one, app_nil_r.
Qed.

Lemma run_conserves pf schedule : forall s s' tr,
  reachable pf s -> run pf schedule s = Some (s', tr) ->
  map fst (m_tasks (pool s')) ++ in_flight (m_threads (pool s')) ++ invoked tr ≡ₚ
  submitted schedule ++ map fst (m_tasks (pool s)) ++ in_flight (m_threads (pool s)).
Proof.
  induction schedule as [|a rest IH]; intros s s' tr Hr E; cbn in E.
  - injection E as <- <-. cbn. by rewrite app_nil_r.
  - destruct (step pf a s) as [[s1 ev]|] eqn:Es; [|done].
    destruct (run pf rest s1) as [[s2 ev']|] eqn:Er; [|done].
    injection E as <- <-.
    assert (Hr1 : reachable pf s1) by by apply reach_step with s a ev.
    pose proof (IH s1 s2 ev' Hr1 Er) as H1.
    pose proof (step_conserves pf a s s1 ev (reachable_inv pf s Hr) Es) as H2.
    unfold invoked in *. rewrite omap_app. cbn [submitted flat_map].
    fold (submitted rest).
    set (X := omap _ ev) in *. set (Y := omap _ ev') in *.
    transitivity ((map fst (m_tasks (pool s2)) ++ in_flight (m_threads (pool s2)) ++ Y) ++ X).
    { solve_Permutation. }
    rewrite H1.
    transitivity (submitted rest ++
      (map fst (m_tasks (pool s1)) ++ in_flight (m_threads (pool s1)) ++ X)).
    { solve_Permutation. }
    rewrite H2. solve_Permutation.
Qed.

Lemma constructed_fresh maxThreads p :
  construct maxThreads = Constructed p ->
  m_tasks p = [] /\ in_flight (m_threads p) = [] /\ m_threads p <> [].
Proof.
  intros Hc. apply construct_Constructed in Hc as [En ->]. cbn.
  split; [done|]. split.
  - induction (N.to_nat maxThreads) as [|n IH]; [done|]. done.
  - destruct (N.to_nat maxThreads) eqn:E0; [lia | done].
Qed.

(** X6: no record is lost or run twice.  After any schedule from a
    freshly constructed pool, the callables submitted so far are, with
    multiplicity, exactly those still in the queue, those a worker has
    popped and not yet invoked, and those invoked. *)
Theorem submissions_are_conserved pf maxThreads p schedule s tr :
  construct maxThreads = Constructed p ->
  run pf schedule {| pool := p; caller := Alive |} = Some (s, tr) ->
  map fst (m_tasks (pool s)) ++ in_flight (m_threads (pool s)) ++ invoked tr
    ≡ₚ submitted schedule.
Proof.
  intros Hc E.
  pose proof (run_conserves pf schedule _ _ _ (reach_construct pf maxThreads p Hc) E) as H.
  cbn [pool] in H. destruct (constructed_fresh _ _ Hc) as (Ht & Hf & _).
  rewrite Ht, Hf in H. cbn [map app] in H. by rewrite app_nil_r in H.
Qed.

Lemma run_reachable pf schedule : forall s s' tr,
  reachable pf s -> run pf schedule s = Some (s', tr) -> reachable pf s'.
Proof.
  induction schedule as [|a rest IH]; intros s s' tr Hr E; cbn in E.
  - by injection E as <- <-.
  - destruct (step pf a s) as [[s1 ev]|] eqn:Es; [|done].
    destruct (run pf rest s1) as [[s2 ev']|] eqn:Er; [|done].
    injection E as <- <-. apply (IH s1 s2 ev'); [|done].
    by apply reach_step with s a ev.
Qed.

Lemma in_flight_terminal ts :
  Forall (fun w => w = Terminal) ts -> in_flight ts = [].
Proof.
  induction 1 as [|w ts -> _ IH]; [done|]. unfold in_flight in *. cbn. done.
Qed.

(** X7: when the destructor's join has completed, every callable that
    was ever submitted has been invoked exactly once: all workers have
    ended, the queue is empty, and the invocations of the run are, with
    multiplicity, the submissions of the run.  (This is what the
    README's benchmark asserts with its counter.) *)
Theorem join_means_all_executed pf maxThreads p schedule s tr :
  construct maxThreads = Constructed p ->
  run pf schedule {| pool := p; caller := Alive |} = Some (s, tr) ->
  caller s = Joined ->
  Forall (fun w => w = Terminal) (m_threads (pool s)) /\
  m_tasks (pool s) = [] /\
  invoked tr ≡ₚ submitted schedule /\
  length (invoked tr) = length (submitted schedule).
Proof.
  intros Hc E Hj.
  pose proof (run_reachable pf schedule _ _ _ (reach_construct pf maxThreads p Hc) E) as Hr.
  destruct (reachable_system_inv pf s Hr) as [_ _ It _ _ Ij Il].
  specialize (Ij Hj).
  destruct (lookup_lt_is_Some_2 (m_threads (pool s)) 0 Il) as [w0 H0].
  assert (w0 = Terminal) as -> by by apply (Forall_lookup_1 _ _ _ _ Ij H0).
  destruct (It 0 H0) as [_ Ht].
  pose proof (run_conserves pf schedule _ _ _ (reach_construct pf maxThreads p Hc) E) as H.
  cbn [pool] in H. destruct (constructed_fresh _ _ Hc) as (Ht0 & Hf0 & _).
  rewrite Ht0, Hf0, Ht, (in_flight_terminal _ Ij) in H. cbn in H.
  rewrite app_nil_r in H.
  split; [done|]. split; [done|]. split; [done|]. by apply Permutation_length.
Qed.

(** ** The order of execution *)

Lemma length_pq_pop pf q r :
  is_heap (TaskPriorityComparator pf) q -> pq_top q = Some r ->
  length q = S (length (pq_pop (TaskPriorityComparator pf) q)).
Proof.
  intros Hh Hr.
  destruct (pq_pop_spec (TaskPriorityComparator pf)
              (TaskPriorityComparator_asym pf) (TaskPriorityComparator_negtrans pf)
              _ r Hh Hr) as [_ Hperm].
  by rewrite (Permutation_length Hperm).
Qed.

Lemma drain_order_step pf q r :
  is_heap (TaskPriorityComparator pf) q -> pq_top q = Some r ->
  drain_order pf q = r :: drain_order pf (pq_pop (TaskPriorityComparator pf) q).
Proof.
  intros Hh Hr. unfold drain_order. rewrite (length_pq_pop pf q r Hh Hr). cbn.
  by rewrite Hr.
Qed.

Lemma drain_order_nil pf : drain_order (Task := Task) pf [] = [].
Proof. done. Qed.

(** Popping a heap until it is empty sorts it. *)
Lemma drain_order_sorted pf q :
  platform_ordered pf ->
  is_heap (TaskPriorityComparator pf) q ->
  drain_order pf q ≡ₚ q /\ StronglySorted by_priority (drain_order pf q).
Proof.
  intros Hpf. remember (length q) as n eqn:Hn. revert q Hn.
  induction n as [|n IH]; intros q Hn Hh.
  - destruct q; [|done]. split; [done | constructor].
  - destruct q as [|r0 q0] eqn:Eq; [done|]. rewrite <- Eq in *.
    assert (Hr : pq_top q = Some r0) by by rewrite Eq.
    destruct (pq_pop_spec (TaskPriorityComparator pf)
                (TaskPriorityComparator_asym pf) (TaskPriorityComparator_negtrans pf)
                _ r0 Hh Hr) as [Hh' Hperm].
    rewrite (drain_order_step pf q r0 Hh Hr).
    destruct (IH (pq_pop (TaskPriorityComparator pf) q)) as [H1 H2]; [|done|].
    { apply Permutation_length in Hperm. cbn in Hperm. lia. }
    split.
    + rewrite H1. by symmetry.
    + constructor; [done|]. apply Forall_forall. intros r' Hin.
      apply list_elem_of_In in Hin. rewrite H1 in Hin.
      assert (Hq : r' ∈ q) by (rewrite Hperm; by apply list_elem_of_further, list_elem_of_In).
      apply list_elem_of_lookup_1 in Hq as [j Hj].
      pose proof (heap_front_greatest (TaskPriorityComparator pf)
                    (TaskPriorityComparator_asym pf) (TaskPriorityComparator_negtrans pf)
                    _ r0 Hh Hr j r' Hj) as Hc.
      rewrite TaskPriorityComparator_rank in Hc by done.
      apply Nat.ltb_ge in Hc. exact Hc.
Qed.

(** X8: in every reachable state, popping the queue until it is empty
    hands out every queued record exactly once, in non-increasing order
    of priority (Realtime first, Lowest last). *)
Theorem queue_drains_in_priority_order pf s :
  platform_ordered pf -> reachable pf s ->
  let order := drain_order pf (m_tasks (pool s)) in
  order ≡ₚ m_tasks (pool s) /\ StronglySorted by_priority order.
Proof.
  intros Hpf Hreach. apply drain_order_sorted; [done|].
  by apply (reachable_inv pf s Hreach).
Qed.

Lemma flight_short w : length (flight w) <= 1.
Proof. destruct w; cbn; lia. Qed.

Lemma app_comm_short {B : Type} (a b c : list B) :
  a ++ b = c -> length c <= 1 -> b ++ a = c.
Proof.
  intros <- Hl. destruct a as [|x a]; [by rewrite app_nil_r|].
  destruct b as [|y b]; [by rewrite app_nil_r|].
  rewrite length_app in Hl. cbn in Hl. lia.
Qed.

Lemma single_step_order pf a s s' ev w :
  pool_inv pf (pool s) -> is_submission a = false ->
  m_threads (pool s) = [w] -> step pf a s = Some (s', ev) ->
  exists w', m_threads (pool s') = [w'] /\
    invoked ev ++ flight w' ++ map fst (drain_order pf (m_tasks (pool s'))) =
    flight w ++ map fst (drain_order pf (m_tasks (pool s))).
Proof.
  intros [Hh _] Ha Hts E. destruct a as [i os| |task priority pick|tasks pick|task priority|tasks|pick]; try done;
    cbn in E.
  - destruct (worker_step pf os i (pool s)) as [[p' ev']|] eqn:Ew; [|done].
    injection E as <- <-. cbn [pool].
    destruct (worker_step_facts _ _ _ _ _ _ Ew)
      as (w0 & w' & Hw & _ & _ & Hts' & _ & _ & Htasks & _).
    rewrite Hts in Hw, Hts'. destruct i as [|i]; [|done]. injection Hw as <-.
    exists w'. split; [done|].
    destruct Htasks as [[-> Hf]|(-> & -> & r & Hr & -> & ->)].
    + rewrite app_assoc. f_equal.
      apply app_comm_short; [done | apply flight_short].
    + cbn. by rewrite (drain_order_step pf _ r Hh Hr).
  - unfold destructor_step in E. destruct (caller s); try done.
    + injection E as <- <-. exists w. by rewrite <- Hts.
    + injection E as <- <-. cbn [pool m_threads m_tasks set_threads]. rewrite Hts.
      eexists. split; [reflexivity|]. by destruct w.
    + destruct (forallb is_terminal (m_threads (pool s))); [|done].
      injection E as <- <-. exists w. by rewrite <- Hts.
  - destruct (caller s); try done. injection E as <- <-.
    cbn [pool m_threads m_tasks set_threads]. rewrite Hts.
    destruct (notify_one_spec pick [w]) as [-> | (k & Hk & ->)]; [by exists w|].
    destruct k as [|k]; [|done]. injection Hk as ->. by exists Woken.
Qed.

Lemma single_run_order pf schedule : forall s s' tr w,
  reachable pf s -> Forall (fun a => is_submission a = false) schedule ->
  m_threads (pool s) = [w] -> run pf schedule s = Some (s', tr) ->
  exists w', m_threads (pool s') = [w'] /\
    invoked tr ++ flight w' ++ map fst (drain_order pf (m_tasks (pool s'))) =
    flight w ++ map fst (drain_order pf (m_tasks (pool s))).
Proof.
  induction schedule as [|a rest IH]; intros s s' tr w Hr Hns Hts E; cbn in E.
  - injection E as <- <-. by exists w.
  - destruct (step pf a s) as [[s1 ev]|] eqn:Es; [|done].
    destruct (run pf rest s1) as [[s2 ev']|] eqn:Er; [|done].
    injection E as <- <-. apply Forall_cons in Hns as [Ha Hns].
    destruct (single_step_order pf a s s1 ev w (reachable_inv pf s Hr) Ha Hts Es)
      as (w1 & Hts1 & H1).
    assert (Hr1 : reachable pf s1) by by apply reach_step with s a ev.
    destruct (IH s1 s2 ev' w1 Hr1 Hns Hts1 Er) as (w2 & Hts2 & H2).
    exists w2. split; [done|].
    unfold invoked in *. rewrite omap_app, <- app_assoc, H2. exact H1.
Qed.

Lemma run_app pf l1 : forall l2 (s : @system Task),
  run pf (l1 ++ l2) s =
  match run pf l1 s with
  | Some (s1, t1) =>
      match run pf l2 s1 with
      | Some (s2, t2) => Some (s2, t1 ++ t2)
      | None => None
      end
  | None => None
  end.
Proof.
  induction l1 as [|a l1 IH]; intros l2 s; cbn.
  - by destruct (run pf l2 s) as [[s2 t2]|].
  - destruct (step pf a s) as [[s1 ev]|]; [|done]. rewrite IH.
    destruct (run pf l1 s1) as [[s2 t1]|]; [|done].
    destruct (run pf l2 s2) as [[s3 t2]|]; [|done].
    by rewrite app_assoc.
Qed.

Lemma drain_order_nil_inv pf q :
  is_heap (TaskPriorityComparator pf) q -> drain_order pf q = [] -> q = [].
Proof.
  intros Hh Hd. destruct q as [|r q]; [done|].
  by rewrite (drain_order_step pf (r :: q) r Hh eq_refl) in Hd.
Qed.

Lemma batch_queue_perm pf (tasks : list (@TaskPriority Task)) :
  batch_queue pf tasks ≡ₚ tasks.
Proof. unfold batch_queue. rewrite fold_push_perm. by rewrite app_nil_r. Qed.

Lemma batch_queue_heap pf tasks :
  is_heap (TaskPriorityComparator pf) (batch_queue (Task := Task) pf tasks).
Proof. apply fold_push_heap, is_heap_nil. Qed.

(** What a run of a one-worker pool around a single batch has done. *)
Lemma single_worker_batch_trace pf p before tasks pick after s tr :
  construct 1%N = Constructed p ->
  Forall (fun a => is_submission a = false) before ->
  Forall (fun a => is_submission a = false) after ->
  run pf (before ++ ActAddSpan tasks pick :: after) {| pool := p; caller := Alive |}
    = Some (s, tr) ->
  let order := drain_order pf (batch_queue pf tasks) in
  (exists w, m_threads (pool s) = [w] /\
     invoked tr ++ flight w ++ map fst (drain_order pf (m_tasks (pool s))) = map fst order) /\
  (caller s = Joined -> invoked tr = map fst order).
Proof.
  intros Hc Hb Ha E order.
  assert (Hp : p = {| m_quit := false; m_tasks := []; m_threads := [AtLock];
                      m_mutex := None |}) by by injection Hc as <-.
  pose proof (reach_construct pf 1%N p Hc) as Hr0.
  rewrite run_app in E.
  destruct (run pf before {| pool := p; caller := Alive |}) as [[s1 t1]|] eqn:E1; [|done].
  cbn [run] in E.
  destruct (step pf (ActAddSpan tasks pick) s1) as [[s2 ev]|] eqn:E2; [|done].
  destruct (run pf after s2) as [[s3 t3]|] eqn:E3; [|done].
  injection E as <- <-.
  pose proof (run_reachable pf before _ _ _ Hr0 E1) as Hr1.
  destruct (single_run_order pf before _ _ _ AtLock Hr0 Hb ltac:(by rewrite Hp) E1)
    as (w1 & Hts1 & H1).
  rewrite Hp in H1. cbn in H1.
  apply app_eq_nil in H1 as [Hi1 H1]. apply app_eq_nil in H1 as [Hf1 Hd1].
  apply map_eq_nil in Hd1.
  apply drain_order_nil_inv in Hd1; [|by apply (reachable_inv pf s1 Hr1)].
  assert (Hr2 : reachable pf s2) by by apply reach_step with s1 (ActAddSpan tasks pick) ev.
  cbn in E2. destruct (caller s1); try done. destruct (mutex_free (pool s1)); [|done].
  injection E2 as <- <-.
  assert (Hts2 : exists w2, notify_one pick (m_threads (pool s1)) = [w2] /\ flight w2 = []).
  { rewrite Hts1. destruct (notify_one_spec pick [w1]) as [-> | (i & Hi & ->)].
    - by exists w1.
    - destruct i as [|i]; [|done]. by exists Woken. }
  destruct Hts2 as (w2 & Hts2 & Hf2).
  destruct (single_run_order pf after _ _ _ w2 Hr2 Ha Hts2 E3) as (w3 & Hts3 & H3).
  cbn [pool m_tasks add_span set_tasks set_threads] in H3.
  rewrite Hd1, Hf2 in H3. cbn [app] in H3. fold (batch_queue pf tasks) in H3.
  assert (Hinv : invoked (t1 ++ [] ++ t3) = invoked t3).
  { unfold invoked in *. rewrite !omap_app. cbn. by rewrite Hi1. }
  split.
  - exists w3. split; [done|]. by rewrite Hinv.
  - intros Hj. rewrite Hinv.
    pose proof (run_reachable pf after _ _ _ Hr2 E3) as Hr3.
    destruct (reachable_system_inv pf s3 Hr3) as [_ _ It _ _ Ij _].
    specialize (Ij Hj). rewrite Hts3 in Ij. apply Forall_cons in Ij as [-> _].
    destruct (It 0) as [_ Ht]; [by rewrite Hts3|].
    rewrite Ht in H3. cbn in H3. by rewrite app_nil_r in H3.
Qed.

(** X9: a pool with one worker executes a batch in priority order under
    every interleaving.  Whatever the worker and the destructor do
    before and after the one [add(span)] of the run, the callables
    invoked so far, the one in flight and those still queued are, in
    this order, the batch in the order of its priorities; that order is
    non-increasing in priority and contains every record of the batch
    once.  When the join has completed the whole batch has been
    executed in that order. *)
Theorem single_worker_runs_batch_in_priority_order pf p before tasks pick after s tr :
  platform_ordered pf ->
  construct 1%N = Constructed p ->
  Forall (fun a => is_submission a = false) before ->
  Forall (fun a => is_submission a = false) after ->
  run pf (before ++ ActAddSpan tasks pick :: after) {| pool := p; caller := Alive |}
    = Some (s, tr) ->
  let order := drain_order pf (batch_queue pf tasks) in
  order ≡ₚ tasks /\ StronglySorted by_priority order /\
  (exists w, m_threads (pool s) = [w] /\
     invoked tr ++ flight w ++ map fst (drain_order pf (m_tasks (pool s))) = map fst order) /\
  (caller s = Joined -> invoked tr = map fst order).
Proof.
  intros Hpf Hc Hb Ha E order.
  destruct (drain_order_sorted pf (batch_queue pf tasks) Hpf (batch_queue_heap pf tasks))
    as [Hperm Hsorted].
  split; [etrans; [exact Hperm | apply batch_queue_perm]|]. split; [done|].
  by apply (single_worker_batch_trace pf p before tasks pick after s tr).
Qed.

End PoolFacts.

(** ** Concrete runs *)

Lemma reachable_run {Task : Type} pf schedule : forall (s s' : @system Task) tr,
  reachable pf s -> run pf schedule s = Some (s', tr) -> reachable pf s'.
Proof.
  induction schedule as [|a rest IH]; intros s s' tr Hr E; cbn in E.
  - by injection E as <- <-.
  - destruct (step pf a s) as [[s1 ev]|] eqn:Es; [|done].
    destruct (run pf rest s1) as [[s2 ev']|] eqn:Er; [|done].
    injection E as <- <-. apply (IH s1 s2 ev'); [|done].
    by apply reach_step with s a ev.
Qed.

Lemma fresh_pool_reachable pf : reachable pf fresh_pool.
Proof. by apply (reach_construct pf 1%N). Qed.

Lemma dequeuing_state_reachable : reachable Linux dequeuing_state.
Proof.
  apply (reachable_run Linux
           [ActAddSpan [(1, Low); (2, High); (3, Normal)] 0;
            ActWorker 0 (os_agrees 0); ActWorker 0 (os_agrees 0)]
           fresh_pool _ []); [apply fresh_pool_reachable|].
  reflexivity.
Qed.

Lemma adapting_state_reachable pf : reachable pf adapting_state.
Proof.
  apply (reachable_run pf
           [ActAdd 7 Normal 0;
            ActWorker 0 (os_agrees 0); ActWorker 0 (os_agrees 0); ActWorker 0 (os_agrees 0)]
           fresh_pool _ []); [apply fresh_pool_reachable|].
  destruct pf; reflexivity.
Qed.

Lemma shutdown_state_reachable pf : reachable pf shutdown_state.
Proof.
  apply (reachable_run pf [ActAdd 7 Normal 0; ActDestructor; ActDestructor]
           fresh_pool _ []); [apply fresh_pool_reachable|].
  destruct pf; reflexivity.
Qed.

Lemma dequeuing_state_reachable_windows :
  reachable (Windows winbase_priorities) dequeuing_state.
Proof.
  apply (reachable_run (Windows winbase_priorities)
           [ActAddSpan [(1, Low); (2, High); (3, Normal)] 0;
            ActWorker 0 (os_agrees 0); ActWorker 0 (os_agrees 0)]
           fresh_pool _ []); [apply fresh_pool_reachable|].
  reflexivity.
Qed.

(** The dequeue step on Windows, with the values of the SDK: of Low,
    High and Normal the record of priority High is handed out. *)
Lemma dequeue_returns_maximal_witness :
  platform_ordered (Windows winbase_priorities) /\
  exists r p',
    worker_step (Windows winbase_priorities) (os_agrees 0) 0 (pool dequeuing_state)
      = Some (p', []) /\
    m_threads p' !! 0 = Some (Adapting r) /\
    m_tasks (pool dequeuing_state) ≡ₚ r :: m_tasks p' /\
    forall r', r' ∈ m_tasks (pool dequeuing_state) -> rank (snd r') <= rank (snd r).
Proof.
  assert (H : platform_ordered (Windows winbase_priorities)) by (cbn; lia).
  split; [exact H|].
  apply (dequeue_returns_maximal (Windows winbase_priorities) dequeuing_state 0 (os_agrees 0)).
  - exact H.
  - apply dequeuing_state_reachable_windows.
  - reflexivity.
  - reflexivity.
Defined.

(** A pool of three workers. *)
Lemma construct_outcomes_witness :
  construct (Task := nat) 3%N =
    Constructed {| m_quit := false; m_tasks := [];
                   m_threads := [AtLock; AtLock; AtLock]; m_mutex := None |} /\
  (1 <= 3 <= max_size)%N /\
  length [AtLock (Task := nat); AtLock; AtLock] = N.to_nat 3%N /\
  Forall (fun w => w = AtLock /\ phase_of w = Waiting) [AtLock (Task := nat); AtLock; AtLock] /\
  @nil (@TaskPriority nat) = [] /\ false = false /\ @None nat = None.
Proof.
  split; [reflexivity|]. exact (construct_outcomes 3%N).
Defined.

(** C4 as stated fails: the count [SIZE_MAX] is at least 1, and the
    constructor throws [length_error] out of [reserve] with no worker
    spawned. *)
Lemma construct_huge_count_counterexample :
  (1 <= SIZE_MAX)%N /\
  construct (Task := nat) SIZE_MAX =
    Thrown (length_error "vector::reserve") default_members /\
  m_threads (default_members (Task := nat)) = [].
Proof. split; [done|]. split; reflexivity. Qed.

(** The transitions of the worker at each point the statement speaks
    of.  At the predicate with nothing queued and no shutdown the worker
    stays in Waiting and goes on to block; with a record queued, or with
    shutdown requested, it leaves Waiting for Dequeuing; every such step
    leaves the queue alone.  After the wait, with an empty queue, it
    goes back to the top of the loop without the flag and ends with it;
    once ended it takes no step and no other thread moves it. *)
Lemma wait_predicate_transitions_witness :
  let pf := Linux in
  let os := os_agrees 0 in
  let stays_until_predicate (p : @PriorityThreadPool nat) (w : @worker nat) :=
    forall (p' : @PriorityThreadPool nat) (ev : list (@event nat)) (w' : @worker nat),
      worker_step pf os 0 p = Some (p', ev) -> m_threads p' !! 0 = Some w' ->
      (phase_of w' <> Waiting <->
         w = AtPredicate /\ m_quit p || negb (pq_empty (m_tasks p)) = true) /\
      (phase_of w' <> Waiting -> w' = Dequeuing) /\
      m_tasks p' = m_tasks p /\ ev = [] in
  (m_threads predicate_idle !! 0 = Some AtPredicate /\
   stays_until_predicate predicate_idle AtPredicate /\
   exists p',
     worker_step pf os 0 predicate_idle = Some (p', []) /\
     m_threads p' !! 0 = Some AtWait) /\
  (m_threads predicate_pending !! 0 = Some AtPredicate /\
   stays_until_predicate predicate_pending AtPredicate /\
   exists p',
     worker_step pf os 0 predicate_pending = Some (p', []) /\
     m_threads p' !! 0 = Some Dequeuing) /\
  (m_threads predicate_quit !! 0 = Some AtPredicate /\
   stays_until_predicate predicate_quit AtPredicate /\
   exists p',
     worker_step pf os 0 predicate_quit = Some (p', []) /\
     m_threads p' !! 0 = Some Dequeuing) /\
  (m_threads (pool fresh_pool) !! 0 = Some AtLock /\
   stays_until_predicate (pool fresh_pool) AtLock) /\
  (m_threads dequeuing_empty !! 0 = Some Dequeuing /\
   pq_empty (m_tasks dequeuing_empty) = true /\ m_quit dequeuing_empty = false /\
   exists p',
     worker_step pf os 0 dequeuing_empty = Some (p', []) /\
     m_threads p' !! 0 = Some AtLock /\ phase_of (AtLock (Task := nat)) = Waiting /\
     m_tasks p' = m_tasks dequeuing_empty) /\
  (m_threads dequeuing_quit !! 0 = Some Dequeuing /\
   pq_empty (m_tasks dequeuing_quit) = true /\ m_quit dequeuing_quit = true /\
   exists p',
     worker_step pf os 0 dequeuing_quit = Some (p', []) /\
     m_threads p' !! 0 = Some Terminal /\
     m_tasks p' = m_tasks dequeuing_quit) /\
  (m_threads terminal_pool !! 0 = Some Terminal /\
   worker_step pf os 0 terminal_pool = None /\
   forall c a s' ev,
     step pf a {| pool := terminal_pool; caller := c |} = Some (s', ev) ->
     m_threads (pool s') !! 0 = Some Terminal).
Proof.
  cbn zeta.
  split; [|split; [|split; [|split; [|split; [|split] ] ] ] ].
  - destruct (wait_predicate_transitions Linux (os_agrees 0) 0 predicate_idle AtPredicate eq_refl) as (H1 & H2 & _).
    split; [reflexivity|]. split; [exact (H1 eq_refl) | exact (H2 eq_refl)].
  - destruct (wait_predicate_transitions Linux (os_agrees 0) 0 predicate_pending AtPredicate eq_refl) as (H1 & H2 & _).
    split; [reflexivity|]. split; [exact (H1 eq_refl) | exact (H2 eq_refl)].
  - destruct (wait_predicate_transitions Linux (os_agrees 0) 0 predicate_quit AtPredicate eq_refl) as (H1 & H2 & _).
    split; [reflexivity|]. split; [exact (H1 eq_refl) | exact (H2 eq_refl)].
  - destruct (wait_predicate_transitions Linux (os_agrees 0) 0 (pool fresh_pool) AtLock eq_refl) as (H1 & _).
    split; [reflexivity | exact (H1 eq_refl)].
  - destruct (wait_predicate_transitions Linux (os_agrees 0) 0 dequeuing_empty Dequeuing eq_refl) as (_ & _ & H3 & _).
    split; [reflexivity|]. split; [reflexivity|]. split; [reflexivity|].
    exact (H3 eq_refl eq_refl eq_refl).
  - destruct (wait_predicate_transitions Linux (os_agrees 0) 0 dequeuing_quit Dequeuing eq_refl) as (_ & _ & _ & H4 & _).
    split; [reflexivity|]. split; [reflexivity|]. split; [reflexivity|].
    exact (H4 eq_refl eq_refl eq_refl).
  - destruct (wait_predicate_transitions Linux (os_agrees 0) 0 terminal_pool Terminal eq_refl) as (_ & _ & _ & _ & H5).
    split; [reflexivity|]. exact (H5 eq_refl).
Defined.

(** The worker's priority is 0 and the record asks for 50: the read,
    then one set call with the value 50, made without the mutex. *)
Lemma adaptation_outside_lock_witness :
  let priority := priority_value Linux Normal in
  let tr := adapt_priority (Task := nat) Linux (os_agrees 0) priority in
  (reachable Linux adapting_state /\
   m_threads (pool adapting_state) !! 0 = Some (Adapting (7, Normal))) /\
  m_mutex (pool adapting_state) <> Some 0 /\
  (exists p',
     worker_step Linux (os_agrees 0) 0 (pool adapting_state) = Some (p', tr) /\
     m_threads p' !! 0 = Some (Executing (7, Normal)) /\
     m_mutex p' = m_mutex (pool adapting_state) /\
     m_tasks p' = m_tasks (pool adapting_state)) /\
  (set_calls tr = [] \/ set_calls tr = [priority]) /\
  (set_calls tr <> [] -> sched_priority (os_agrees 0) <> priority) /\
  (sched_priority (os_agrees 0) = priority -> set_calls tr = []) /\
  (exists rest, tr = EvGetPriority :: rest /\ Forall (fun e => e <> EvGetPriority) rest) /\
  (set_calls tr = [50%Z] /\
   exists report, tr = EvGetPriority :: EvSetPriority 50 :: report /\
     (report = [] \/ report = [EvLog errorMessage])) /\
  (read_succeeded Linux (os_agrees 0) = false \/ sched_priority (os_agrees 0) = priority ->
   tr = [EvGetPriority]).
Proof.
  cbn zeta.
  pose proof (adaptation_outside_lock Linux adapting_state 0 (os_agrees 0) (7, Normal)
                (adapting_state_reachable Linux) eq_refl) as H.
  cbn zeta in H.
  destruct H as (H1 & H2 & H3 & H4 & H5 & H6 & H7 & H8).
  split; [split; [apply adapting_state_reachable | reflexivity]|].
  split; [exact H1|]. split; [exact H2|]. split; [exact H3|]. split; [exact H4|].
  split; [exact H5|]. split; [exact H6|]. split; [|exact H8].
  apply H7; [reflexivity | cbn; lia].
Defined.

(** The read of the priority fails during the dispatch of record 7. *)
Lemma adaptation_failure_nonfatal_witness :
  let os := fun _ : nat => os_read_fails in
  let pre := adapt_priority (Task := nat) Linux (os 0) (priority_value Linux Normal) in
  (exists p',
     worker_run Linux os 2 0 (pool adapting_state) = (p', pre ++ [EvInvoke 7]) /\
     m_threads p' !! 0 = Some AtLock) /\
  invoked (pre ++ [EvInvoke 7]) = [7] /\
  (set_calls pre <> [] -> set_failed Linux (os 0) = true -> logged pre = [errorMessage]) /\
  (logged pre <> [] -> set_calls pre <> [] /\ set_failed Linux (os 0) = true) /\
  (Linux = Linux -> getschedparam_ret (os 0) <> 0%Z -> pre = [EvGetPriority]).
Proof.
  apply (adaptation_failure_nonfatal Linux (fun _ => os_read_fails) 0
           (pool adapting_state) (7, Normal)).
  reflexivity.
Defined.

(** The worker drains the one record that was queued at shutdown. *)
Lemma shutdown_drains_queue_witness :
  (exists p' tr,
     worker_run Linux (fun _ => os_agrees 0) 8 0 (pool shutdown_state) = (p', tr) /\
     m_threads p' !! 0 = Some Terminal /\
     m_tasks p' = [] /\
     invoked tr ≡ₚ map fst (m_tasks (pool shutdown_state))) /\
  (forall j os' (p0 p1 : @PriorityThreadPool nat) ev w,
     m_threads p0 !! j = Some w -> w <> Terminal ->
     worker_step Linux os' j p0 = Some (p1, ev) ->
     m_threads p1 !! j = Some Terminal ->
     w = Dequeuing /\ pq_empty (m_tasks p0) = true /\ m_quit p0 = true).
Proof.
  apply (shutdown_drains_queue Linux shutdown_state 0 (fun _ => os_agrees 0) 8).
  - apply shutdown_state_reachable.
  - reflexivity.
  - reflexivity.
  - reflexivity.
  - cbn. lia.
Defined.

(** C1 as stated fails: record 7 is in the queue when the destructor has
    stored the flag and notified, and the next five steps of the worker
    pop it and invoke it. *)
Lemma shutdown_drops_queue_counterexample :
  reachable Linux shutdown_state /\
  m_quit (pool shutdown_state) = true /\
  m_tasks (pool shutdown_state) = [(7, Normal)] /\
  run Linux (replicate 5 (ActWorker 0 (os_agrees 50))) shutdown_state =
    Some ({| pool := {| m_quit := true; m_tasks := []; m_threads := [AtLock];
                        m_mutex := None |};
             caller := Notified |},
          [EvGetPriority; EvInvoke 7]).
Proof. split; [apply shutdown_state_reachable | repeat split]. Qed.

(** C5 as stated fails: [pthread_getschedparam] reports an error during
    the dispatch of record 7 and no diagnostic is written. *)
Lemma read_failure_logged_counterexample :
  getschedparam_ret os_read_fails <> 0%Z /\
  worker_run Linux (fun _ => os_read_fails) 2 0 (pool adapting_state) =
    ({| m_quit := false; m_tasks := []; m_threads := [AtLock]; m_mutex := None |},
     [EvGetPriority; EvInvoke 7]) /\
  logged [EvGetPriority; EvInvoke (Task := nat) 7] = [].
Proof. repeat split. done. Qed.

(** C8: the store to [m_quit] is not made under the mutex, and a worker
    can miss the wake-up.  The worker takes the lock and finds the
    predicate false; before it blocks, the destructor stores the flag
    and notifies, which wakes nobody; the worker then blocks.  In the
    state reached the flag is set, the worker is blocked on the
    condition variable, the join cannot complete, and no thread can
    take a step. *)
Theorem destructor_lost_wakeup :
  construct 1%N = Constructed (pool fresh_pool) /\
  run Linux [ActWorker 0 (os_agrees 0); ActWorker 0 (os_agrees 0);
             ActDestructor; ActDestructor;
             ActWorker 0 (os_agrees 0)] fresh_pool =
    Some (missed_wakeup_state, []) /\
  forall a, step Linux a missed_wakeup_state = None.
Proof.
  split; [reflexivity|]. split; [reflexivity|].
  intros [i os| |task priority pick|tasks pick|task priority|tasks|pick]; try reflexivity.
  destruct i; reflexivity.
Qed.

(** ** Printing and the README example *)

(** X10: on Linux, and on Windows whenever the SDK's values grow with
    the urgency, [operator<<] writes for each of the five enumerators
    its own name, so the label tells the levels apart, and writes
    [Unknown] for every other value of the underlying type. *)
Theorem Priority_label_names pf :
  platform_ordered pf ->
  (forall p, Priority_label pf (priority_value pf p) =
     match p with
     | Lowest => "Lowest" | Low => "Low" | Normal => "Normal"
     | High => "High" | Realtime => "Realtime"
     end%string) /\
  (forall v, (forall p, v <> priority_value pf p) ->
     Priority_label pf v = "Unknown"%string) /\
  (forall p q,
     Priority_label pf (priority_value pf p) = Priority_label pf (priority_value pf q) ->
     p = q).
Proof.
  intros Hpf.
  assert (H1 : forall p, Priority_label pf (priority_value pf p) =
     match p with
     | Lowest => "Lowest" | Low => "Low" | Normal => "Normal"
     | High => "High" | Realtime => "Realtime"
     end%string).
  { intros p. unfold Priority_label.
    destruct pf as [|w]; [by destruct p|]. destruct w; cbn in *.
    destruct p; cbn;
      repeat match goal with
      | |- context [(?a =? ?b)%Z] => destruct (Z.eqb_spec a b); try lia
      end; reflexivity. }
  split; [exact H1|]. split.
  - intros v Hv. unfold Priority_label.
    repeat match goal with
    | |- context [(v =? priority_value pf ?p)%Z] =>
        destruct (Z.eqb_spec v (priority_value pf p)); [by destruct (Hv p)|]
    end. reflexivity.
  - intros p q. rewrite !H1. by destruct p, q.
Qed.

Lemma generateTasks_loop_spec n priority : forall out,
  generateTasks_loop n priority out = out ++ replicate n (priority, priority).
Proof.
  induction n as [|n IH]; intros out; cbn.
  - by rewrite app_nil_r.
  - by rewrite IH, <- app_assoc.
Qed.

(** X11: [generateTasks] appends to the vector exactly [tasks] records
    (none when [tasks] is zero or negative) and leaves the records
    already there in place; every record it appends is queued with the
    priority its callable prints. *)
Theorem generateTasks_appends priority tasks out :
  generateTasks priority tasks out =
    out ++ replicate (Z.to_nat tasks) (priority, priority) /\
  length (generateTasks priority tasks out) = length out + Z.to_nat (Z.max 0 tasks) /\
  ((tasks <= 0)%Z -> generateTasks priority tasks out = out).
Proof.
  unfold generateTasks. rewrite generateTasks_loop_spec. split; [done|]. split.
  - rewrite length_app, length_replicate. lia.
  - intros Hle. replace (Z.to_nat tasks) with 0 by lia. by rewrite app_nil_r.
Qed.

Lemma generate_all_from calls : forall out,
  fold_left (fun out call => generateTasks (fst call) (snd call) out) calls out =
  out ++ flat_map (fun call => replicate (Z.to_nat (snd call)) (fst call, fst call)) calls.
Proof.
  induction calls as [|c calls IH]; intros out; cbn.
  - by rewrite app_nil_r.
  - rewrite IH. unfold generateTasks. by rewrite generateTasks_loop_spec, <- app_assoc.
Qed.

Lemma generate_all_priorities calls :
  Forall (fun r : @TaskPriority Priority => fst r = snd r) (generate_all calls) /\
  map snd (generate_all calls) =
    flat_map (fun call => replicate (Z.to_nat (snd call)) (fst call)) calls.
Proof.
  unfold generate_all. rewrite generate_all_from. cbn [app].
  induction calls as [|c calls [IH1 IH2] ]; cbn; [by split|]. split.
  - apply Forall_app. split; [|done].
    apply Forall_forall. intros r Hr. apply elem_of_replicate in Hr as [-> _]. done.
  - rewrite map_app, IH2. f_equal.
    induction (Z.to_nat c.2) as [|n IHn]; cbn; [done | by rewrite IHn].
Qed.

Lemma map_fst_snd_agree (l : list (@TaskPriority Priority)) :
  Forall (fun r => fst r = snd r) l -> map fst l = map snd l.
Proof. induction 1 as [|r l Hr _ IH]; cbn; [done | by rewrite Hr, IH]. Qed.

Lemma by_priority_ranks (l : list (@TaskPriority Priority)) :
  StronglySorted by_priority l -> StronglySorted by_rank (map snd l).
Proof.
  induction 1 as [|r l _ IH Hall]; cbn; constructor; [done|].
  apply Forall_map. exact Hall.
Qed.

(** X12: the README's advanced example prints in priority order.  For
    any sequence of [generateTasks] calls whose vector is submitted as
    one batch to a pool with one worker, and under every interleaving
    of the worker and the destructor that ends with the join completed,
    the text on [std::cout] consists of one line per generated task,
    the lines being those of the generated priorities in non-increasing
    order. *)
Theorem readme_example_prints_in_priority_order pf p calls before pick after s tr :
  platform_ordered pf ->
  construct 1%N = Constructed p ->
  Forall (fun a => is_submission a = false) before ->
  Forall (fun a => is_submission a = false) after ->
  run pf (before ++ ActAddSpan (generate_all calls) pick :: after)
    {| pool := p; caller := Alive |} = Some (s, tr) ->
  caller s = Joined ->
  exists printed : list Priority,
    demo_cout pf tr = fold_left (fun cout task => demo_task pf task cout) printed EmptyString /\
    printed ≡ₚ flat_map (fun call => replicate (Z.to_nat (snd call)) (fst call)) calls /\
    StronglySorted by_rank printed.
Proof.
  intros Hpf Hc Hb Ha E Hj.
  destruct (single_worker_batch_trace pf p before (generate_all calls)
              pick after s tr Hc Hb Ha E) as [_ Hdone].
  specialize (Hdone Hj).
  destruct (drain_order_sorted pf (batch_queue pf (generate_all calls)) Hpf
              (batch_queue_heap pf (generate_all calls))) as [Hperm0 Hsorted].
  assert (Hperm : drain_order pf (batch_queue pf (generate_all calls))
                    ≡ₚ generate_all calls).
  { rewrite Hperm0. apply batch_queue_perm. }
  destruct (generate_all_priorities calls) as [Hagree Hsnd].
  set (order := drain_order pf (batch_queue pf (generate_all calls))) in *.
  assert (Hagree' : Forall (fun r : @TaskPriority Priority => fst r = snd r) order).
  { apply Forall_forall. intros r Hr. rewrite Hperm in Hr.
    by apply (proj1 (Forall_forall _ _) Hagree). }
  exists (map snd order). split; [|split].
  - unfold demo_cout. by rewrite Hdone, (map_fst_snd_agree order Hagree').
  - rewrite <- Hsnd. by apply Permutation_map.
  - by apply by_priority_ranks.
Qed.

(** X13: the order among records of one priority is not the order of
    submission.  On every platform, four records of priority Normal
    submitted as 1, 2, 3, 4 are handed out as 1, 3, 2, 4. *)
Theorem equal_priority_not_fifo pf :
  Forall (fun r => snd r = Normal) four_normal /\
  map fst (drain_order pf (batch_queue pf four_normal)) = [1; 3; 2; 4] /\
  map fst (drain_order pf (batch_queue pf four_normal)) <> map fst four_normal.
Proof.
  split; [by repeat constructor|].
  assert (H : map fst (drain_order pf (batch_queue pf four_normal)) = [1; 3; 2; 4]).
  { destruct pf as [|w]; [reflexivity|].
    unfold drain_order, batch_queue, four_normal, TaskPriorityComparator.
    cbn [COMPARATOR fold_left].
    repeat (progress (unfold pq_push, push_heap, pq_pop, pop_heap, adjust_heap, pop_back,
                        pq_top;
                      cbn -[Z.ltb priority_value]; rewrite ?Z.ltb_irrefl;
                      cbn -[Z.ltb priority_value])).
    reflexivity. }
  split; [exact H|]. rewrite H. discriminate.
Qed.

(** ** Concrete instances of the further properties *)

Lemma mutex_exclusive_witness :
  let s := dequeuing_state in
  m_threads (pool s) !! 0 = Some Dequeuing /\
  (m_mutex (pool s) = Some 0 <->
     (Dequeuing (Task := nat) = AtPredicate \/ Dequeuing (Task := nat) = AtWait \/
      Dequeuing (Task := nat) = Dequeuing)) /\
  (forall j w', m_threads (pool s) !! j = Some w' ->
     holds_mutex (Dequeuing (Task := nat)) = true -> holds_mutex w' = true -> 0 = j) /\
  (phase_of (Dequeuing (Task := nat)) = InAdapting \/
   phase_of (Dequeuing (Task := nat)) = InExecuting -> m_mutex (pool s) <> Some 0).
Proof.
  cbn zeta. split; [reflexivity|].
  apply (mutex_exclusive Linux dequeuing_state 0 Dequeuing).
  - apply dequeuing_state_reachable.
  - reflexivity.
Defined.

Lemma continue_branch_unreachable_witness :
  let s := dequeuing_state in
  m_quit (pool s) || negb (pq_empty (m_tasks (pool s))) = true /\
  exists p' w',
    worker_step Linux (os_agrees 0) 0 (pool s) = Some (p', []) /\
    m_threads p' !! 0 = Some w' /\
    ((exists r, w' = Adapting r /\ pq_top (m_tasks (pool s)) = Some r) \/
     (w' = Terminal /\ m_tasks (pool s) = [] /\ m_quit (pool s) = true)).
Proof.
  apply (continue_branch_unreachable Linux dequeuing_state 0 (os_agrees 0)).
  - apply dequeuing_state_reachable.
  - reflexivity.
Defined.


Lemma at_wait_state_reachable : reachable Linux at_wait_state.
Proof.
  apply (reachable_run Linux [ActWorker 0 (os_agrees 0); ActWorker 0 (os_agrees 0)]
           fresh_pool _ []); [apply fresh_pool_reachable|].
  reflexivity.
Qed.

(** Between the push of [add] and its [notify_one] the program is in a
    state in which the pool is alive, a record is queued and the only
    worker is blocked. *)
Lemma pushed_state_reachable : reachable Linux pushed_state.
Proof.
  apply (reachable_run Linux
           [ActWorker 0 (os_agrees 0); ActWorker 0 (os_agrees 0); ActWorker 0 (os_agrees 0);
            ActPush 7 Normal]
           fresh_pool _ []); [apply fresh_pool_reachable|].
  reflexivity.
Qed.

(** The worker blocks with the queue empty; record 7 is then pushed, and
    the [notify_one] of that call wakes the worker. *)
Lemma notify_one_leaves_a_worker_awake_witness :
  (reachable Linux at_wait_state /\
   worker_step Linux (os_agrees 0) 0 (pool at_wait_state) =
     Some ({| m_quit := false; m_tasks := []; m_threads := [Blocked]; m_mutex := None |}, []) /\
   m_threads (pool at_wait_state) !! 0 = Some AtWait /\
   m_tasks (pool at_wait_state) = [] /\
   @nil (@TaskPriority nat) = []) /\
  (reachable Linux pushed_state /\ caller pushed_state = Alive /\
   exists s',
     step Linux (ActNotifyOne 0) pushed_state = Some (s', []) /\
     m_tasks (pool s') = m_tasks (pool pushed_state) /\
     (exists j w, m_threads (pool s') !! j = Some w /\ w <> Blocked /\ w <> Terminal) /\
     (exists i, forall os, exists p' ev, worker_step Linux os i (pool s') = Some (p', ev))).
Proof.
  split.
  - split; [apply at_wait_state_reachable|]. split; [reflexivity|].
    exact (proj1 (notify_one_leaves_a_worker_awake Linux at_wait_state
                    at_wait_state_reachable)
             0 (os_agrees 0) _ [] eq_refl eq_refl).
  - split; [apply pushed_state_reachable|]. split; [reflexivity|].
    exact (proj2 (notify_one_leaves_a_worker_awake Linux pushed_state
                    pushed_state_reachable)
             eq_refl 0).
Defined.

(** Record 7 is submitted and popped: it is in flight. *)
Lemma submissions_are_conserved_witness :
  let schedule := [ActAdd 7 Normal 0; ActWorker 0 (os_agrees 0);
                   ActWorker 0 (os_agrees 0); ActWorker 0 (os_agrees 0)] in
  run Linux schedule fresh_pool = Some (adapting_state, []) /\
  map fst (m_tasks (pool adapting_state)) ++ in_flight (m_threads (pool adapting_state))
    ++ invoked (Task := nat) [] ≡ₚ submitted schedule.
Proof.
  cbn zeta. split; [reflexivity|].
  apply (submissions_are_conserved Linux 1%N (pool fresh_pool) _ adapting_state []);
    reflexivity.
Defined.

(** Two records are submitted as a batch; the destructor runs and the
    worker drains the queue and ends. *)
Lemma join_means_all_executed_witness :
  let schedule := [] ++ ActAddSpan [(5, Low); (6, High)] 0 :: short_after in
  exists s tr,
    run Linux schedule fresh_pool = Some (s, tr) /\
    caller s = Joined /\
    Forall (fun w => w = Terminal) (m_threads (pool s)) /\
    m_tasks (pool s) = [] /\
    invoked tr ≡ₚ submitted schedule /\
    length (invoked tr) = length (submitted schedule).
Proof.
  cbn zeta.
  destruct (run Linux ([] ++ ActAddSpan [(5, Low); (6, High)] 0 :: short_after) fresh_pool)
    as [ [s tr]|] eqn:E; [|vm_compute in E; discriminate E].
  pose proof E as E'. vm_compute in E'. injection E' as <- <-.
  eexists _, _. split; [reflexivity|]. split; [reflexivity|].
  apply (join_means_all_executed Linux 1%N (pool fresh_pool) _ _ _ eq_refl E).
  reflexivity.
Defined.

Lemma queue_drains_in_priority_order_witness :
  let pf := Windows winbase_priorities in
  let order := drain_order pf (m_tasks (pool dequeuing_state)) in
  platform_ordered pf /\
  order ≡ₚ m_tasks (pool dequeuing_state) /\ StronglySorted by_priority order.
Proof.
  cbn zeta.
  assert (H : platform_ordered (Windows winbase_priorities)) by (cbn; lia).
  split; [exact H|].
  apply (queue_drains_in_priority_order (Windows winbase_priorities) dequeuing_state H).
  apply dequeuing_state_reachable_windows.
Defined.

Lemma single_worker_runs_batch_in_priority_order_witness :
  let tasks := [(5, Low); (6, High)] in
  let order := drain_order Linux (batch_queue Linux tasks) in
  exists s tr,
    run Linux ([] ++ ActAddSpan tasks 0 :: short_after) fresh_pool = Some (s, tr) /\
    order ≡ₚ tasks /\ StronglySorted by_priority order /\
    (exists w, m_threads (pool s) = [w] /\
       invoked tr ++ flight w ++ map fst (drain_order Linux (m_tasks (pool s)))
         = map fst order) /\
    (caller s = Joined -> invoked tr = map fst order).
Proof.
  cbn zeta.
  destruct (run Linux ([] ++ ActAddSpan [(5, Low); (6, High)] 0 :: short_after) fresh_pool)
    as [ [s tr]|] eqn:E; [|vm_compute in E; discriminate E].
  exists s, tr. split; [reflexivity|].
  apply (single_worker_runs_batch_in_priority_order Linux (pool fresh_pool) []
           [(5, Low); (6, High)] 0 short_after s tr I eq_refl).
  - constructor.
  - unfold short_after. repeat constructor.
  - exact E.
Defined.

Lemma Priority_label_names_witness :
  let pf := Windows winbase_priorities in
  platform_ordered pf /\
  (forall p, Priority_label pf (priority_value pf p) =
     match p with
     | Lowest => "Lowest" | Low => "Low" | Normal => "Normal"
     | High => "High" | Realtime => "Realtime"
     end%string) /\
  (forall v, (forall p, v <> priority_value pf p) ->
     Priority_label pf v = "Unknown"%string) /\
  (forall p q,
     Priority_label pf (priority_value pf p) = Priority_label pf (priority_value pf q) ->
     p = q).
Proof.
  cbn zeta.
  assert (H : platform_ordered (Windows winbase_priorities)) by (cbn; lia).
  split; [exact H|]. apply (Priority_label_names (Windows winbase_priorities) H).
Defined.

(** The README's [main]: eight Normal, one Lowest, two High, four Low
    and one Realtime task, on a pool with one worker. *)
Lemma readme_example_prints_in_priority_order_witness :
  let fresh := {| pool := {| m_quit := false; m_tasks := []; m_threads := [AtLock];
                             m_mutex := None |};
                  caller := Alive |} in
  exists s tr,
    run Linux ([] ++ ActAddSpan (generate_all readme_calls) 0 :: readme_after) fresh
      = Some (s, tr) /\
    caller s = Joined /\
    exists printed : list Priority,
      demo_cout Linux tr =
        fold_left (fun cout task => demo_task Linux task cout) printed EmptyString /\
      printed ≡ₚ flat_map (fun call => replicate (Z.to_nat (snd call)) (fst call))
                   readme_calls /\
      StronglySorted by_rank printed.
Proof.
  cbn zeta.
  destruct (run Linux ([] ++ ActAddSpan (generate_all readme_calls) 0 :: readme_after)
              {| pool := {| m_quit := false; m_tasks := []; m_threads := [AtLock];
                            m_mutex := None |};
                 caller := Alive |})
    as [ [s tr]|] eqn:E; [|vm_compute in E; discriminate E].
  assert (Hj : caller s = Joined).
  { pose proof E as E'. vm_compute in E'. by injection E' as <- _. }
  exists s, tr. split; [reflexivity|]. split; [exact Hj|].
  apply (readme_example_prints_in_priority_order Linux _ readme_calls [] 0 readme_after
           s tr I eq_refl).
  - constructor.
  - unfold readme_after. repeat constructor.
  - exact E.
  - exact Hj.
Defined.

(** ** The front of the queue after a submission *)

Section HeapFront.
Context {A : Type}.
Variable comp : A -> A -> bool.

(** Sifting a value up from below the root leaves the root alone when
    the root does not compare less than the value. *)
Lemma push_heap_loop_root fuel : forall (c : list A) h v t,
  c !! 0 = Some t -> comp t v = false -> 0 < h ->
  push_heap_loop comp fuel c h 0 v !! 0 = Some t.
Proof.
  induction fuel as [|fuel IH]; intros c h v t Ht Hc Hh; cbn [push_heap_loop].
  - by rewrite list_lookup_insert_ne by lia.
  - destruct (c !! ((h - 1) / 2)) as [p|] eqn:Hp;
      [|by rewrite list_lookup_insert_ne by lia].
    destruct ((0 <? h) && comp p v) eqn:Eb;
      [|by rewrite list_lookup_insert_ne by lia].
    apply andb_true_iff in Eb as [_ Epv].
    destruct (decide ((h - 1) / 2 = 0)) as [E0|Hne].
    + rewrite E0, Ht in Hp. injection Hp as <-. congruence.
    + apply IH; [by rewrite list_lookup_insert_ne by lia | done | lia].
Qed.

Lemma pq_push_keeps_front x (c : list A) t :
  pq_top c = Some t -> comp t x = false -> pq_top (pq_push comp x c) = Some t.
Proof.
  intros Ht Hc. unfold pq_push, push_heap, pq_top in *.
  assert (Hl : 0 < length c) by (by apply lookup_lt_Some in Ht).
  replace (length (c ++ [x]) - 1) with (length c) by (rewrite length_app; cbn; lia).
  rewrite (list_lookup_middle c [] x) by done.
  apply push_heap_loop_root; [by apply lookup_app_l_Some | done | done].
Qed.

End HeapFront.

(** X14: a submission changes the front of the queue exactly when it is
    strictly more urgent than the record at the front.  In every
    reachable state, after [add] the next record to be dequeued is the
    new one if the queue was empty or its front had a lower priority,
    and the old front otherwise; a record of equal priority does not
    overtake the front. *)
Theorem add_changes_front_only_when_more_urgent {Task : Type} pf (s : @system Task)
    task priority pick :
  platform_ordered pf -> reachable pf s ->
  pq_top (m_tasks (add task priority pick pf (pool s))) =
    match pq_top (m_tasks (pool s)) with
    | None => Some (task, priority)
    | Some front =>
        if rank (snd front) <? rank priority then Some (task, priority) else Some front
    end.
Proof.
  intros Hpf Hreach. destruct (reachable_inv pf s Hreach) as [Hh _].
  cbn [add m_tasks set_tasks set_threads].
  set (cmp := TaskPriorityComparator pf). set (q := m_tasks (pool s)) in *.
  destruct (pq_top q) as [front|] eqn:Hf.
  - destruct (rank front.2 <? rank priority) eqn:Er.
    + apply Nat.ltb_lt in Er.
      assert (Hh' : is_heap cmp (pq_push cmp (task, priority) q)).
      { apply pq_push_heap;
          [apply TaskPriorityComparator_asym | apply TaskPriorityComparator_negtrans | done]. }
      pose proof (pq_push_perm cmp (task, priority) q) as Hperm.
      destruct (pq_push cmp (task, priority) q) as [|t' q'] eqn:Eq.
      { apply Permutation_length in Hperm. done. }
      cbn. f_equal.
      assert (Hgreat : forall y, y ∈ t' :: q' -> rank y.2 <= rank t'.2).
      { intros y Hy. apply list_elem_of_lookup_1 in Hy as [j Hj].
        pose proof (heap_front_greatest cmp (TaskPriorityComparator_asym pf)
                      (TaskPriorityComparator_negtrans pf) _ t' Hh' eq_refl j y Hj) as Hc.
        unfold cmp in Hc. rewrite TaskPriorityComparator_rank in Hc by done.
        by apply Nat.ltb_ge in Hc. }
      assert (Hx : (task, priority) ∈ t' :: q') by (rewrite Hperm; apply list_elem_of_here).
      assert (Ht' : t' ∈ (task, priority) :: q) by (rewrite <- Hperm; apply list_elem_of_here).
      apply elem_of_cons in Ht' as [->|Hin]; [done|].
      exfalso. apply list_elem_of_lookup_1 in Hin as [j Hj].
      pose proof (heap_front_greatest cmp (TaskPriorityComparator_asym pf)
                    (TaskPriorityComparator_negtrans pf) _ front Hh Hf j t' Hj) as Hc.
      unfold cmp in Hc. rewrite TaskPriorityComparator_rank in Hc by done.
      apply Nat.ltb_ge in Hc. specialize (Hgreat _ Hx). cbn in Hgreat. lia.
    + apply pq_push_keeps_front; [done|].
      unfold cmp. rewrite TaskPriorityComparator_rank by done. exact Er.
  - destruct q; [|done]. reflexivity.
Qed.

Lemma add_changes_front_only_when_more_urgent_witness :
  platform_ordered Linux /\
  pq_top (m_tasks (add 9 High 0 Linux (pool dequeuing_state))) = Some (2, High) /\
  pq_top (m_tasks (add 9 Realtime 0 Linux (pool dequeuing_state))) = Some (9, Realtime).
Proof.
  split; [exact I|]. split.
  - exact (add_changes_front_only_when_more_urgent Linux dequeuing_state 9 High 0 I
             dequeuing_state_reachable).
  - exact (add_changes_front_only_when_more_urgent Linux dequeuing_state 9 Realtime 0 I
             dequeuing_state_reachable).
Defined.
